(** * fw/register_spi_slave.h: the register based SPI slave

    A shallow embedding of [fw::RegisterSPISlave] and the properties of
    its protocol engine.

    The class is driven from three interrupt handlers
    ([ISR_HandleNssFall], [ISR_HandleNssRise], [ISR_SPI]) that share the
    members [mode_], [current_address_], [buffer_], [tx_bytes_] and
    [rx_bytes_].  The handlers are embedded as computations in a small
    state-and-output monad: the state is the member record together with
    the visible part of the SPI peripheral, the output is the list of
    externally visible effects (register accesses, callback invocations,
    stores into the receive buffer) in program order.

    The handlers run at one interrupt priority, so each runs to its end
    before the next starts; the peripheral changes between them (bytes
    arrive, transmit room frees up) and is read through [SR] and [DR]
    only.  The counters are the 32 bit integers of the target, with
    their wrap-around written out. *)

From Stdlib Require Import ZArith Lia.
From Stdlib.Strings Require Import Byte.
From stdpp Require Import base numbers list.

Local Open Scope Z_scope.

(** ** Data *)

(** [enum Mode] *)
Inductive Mode := kInactive | kWaitingAddress | kTransfer.

#[global] Instance Mode_eq_dec : EqDecision Mode.
Proof. solve_decision. Defined.

(** [struct Buffer]: [tx] is a [std::string_view], a read-only view that
    the engine never writes through; [rx] is a [string_span], a view of
    fixed size whose elements the engine assigns.  Each is modelled by
    the sequence of bytes it views. *)
Record Buffer := { tx : list byte; rx : list byte }.

(** The part of the SPI peripheral the handlers can observe: the bytes
    waiting in the receive FIFO ([SR & SPI_SR_RXNE] is set while there
    is one) and the number of byte writes to [DR] the transmit side
    accepts before [SR & SPI_SR_TXE] clears. *)
Record Peripheral := { rx_fifo : list byte; tx_room : nat }.

(** The members of the class that the interrupt handlers use. *)
Record Machine := {
  mode_ : Mode;
  current_address_ : Z;      (* uint16_t *)
  buffer_ : Buffer;
  tx_bytes_ : Z;             (* volatile size_t *)
  rx_bytes_ : Z;             (* volatile ssize_t *)
  spi_ : Peripheral
}.

(** What a handler does to the outside world, in program order. *)
Inductive effect :=
| DR_read (b : byte)                  (* a read of [spi_->DR] that gave [b] *)
| DR_write (b : byte)                 (* [WriteRegister(&spi_->DR, b)] *)
| start_call (address : Z)            (* [start_handler_(address)] *)
| end_call (address : Z) (count : Z)  (* [end_handler_(address, count)] *)
| rx_store (index : Z) (b : byte)     (* [buffer_.rx[index] = b] *)
| spi_reinit                          (* [Init()] *)
| led_write (level : bool)            (* [status_led_.write(level)] *)
| wild_store (address : Z) (value : Z). (* a 16 bit store through a pointer
                                          made from an integer *)

(** ** Machine integers of the target (a 32 bit Cortex-M) *)

(** [size_t] arithmetic wraps modulo 2^32. *)
Definition size_t_wrap (z : Z) : Z := z mod 2 ^ 32.

(** [ssize_t] is a signed 32 bit integer.  The increment of it at its
    largest value is undefined in the language; the target's
    load/add/store of the volatile member wraps to the smallest value,
    which is what is written out here. *)
Definition ssize_t_wrap (z : Z) : Z := (z + 2 ^ 31) mod 2 ^ 32 - 2 ^ 31.

(** A [uint8_t] widened to [uint16_t]. *)
Definition u8 (b : byte) : Z := Z.of_N (Byte.to_N b).

(** ** The monad of a handler *)

Definition M (A : Type) : Type := Machine -> A * Machine * list effect.

Definition ret {A} (a : A) : M A := fun m => (a, m, []).

Definition bind {A B} (c : M A) (k : A -> M B) : M B :=
  fun m =>
    let '(a, m1, out1) := c m in
    let '(b, m2, out2) := k a m1 in
    (b, m2, out1 ++ out2).

Notation "x <- c ;; k" := (bind c (fun x => k))
  (at level 100, c at next level, right associativity).
Notation "c ;; k" := (bind c (fun _ => k))
  (at level 100, right associativity).

Definition get {A} (field : Machine -> A) : M A := fun m => (field m, m, []).

Definition emit (e : effect) : M unit := fun m => (tt, m, [e]).

Definition set_mode (v : Mode) : M unit := fun m =>
  (tt, {| mode_ := v; current_address_ := current_address_ m;
          buffer_ := buffer_ m; tx_bytes_ := tx_bytes_ m;
          rx_bytes_ := rx_bytes_ m; spi_ := spi_ m |}, []).

Definition set_current_address (v : Z) : M unit := fun m =>
  (tt, {| mode_ := mode_ m; current_address_ := v;
          buffer_ := buffer_ m; tx_bytes_ := tx_bytes_ m;
          rx_bytes_ := rx_bytes_ m; spi_ := spi_ m |}, []).

Definition set_buffer (v : Buffer) : M unit := fun m =>
  (tt, {| mode_ := mode_ m; current_address_ := current_address_ m;
          buffer_ := v; tx_bytes_ := tx_bytes_ m;
          rx_bytes_ := rx_bytes_ m; spi_ := spi_ m |}, []).

Definition set_tx_bytes (v : Z) : M unit := fun m =>
  (tt, {| mode_ := mode_ m; current_address_ := current_address_ m;
          buffer_ := buffer_ m; tx_bytes_ := v;
          rx_bytes_ := rx_bytes_ m; spi_ := spi_ m |}, []).

Definition set_rx_bytes (v : Z) : M unit := fun m =>
  (tt, {| mode_ := mode_ m; current_address_ := current_address_ m;
          buffer_ := buffer_ m; tx_bytes_ := tx_bytes_ m;
          rx_bytes_ := v; spi_ := spi_ m |}, []).

Definition set_spi (v : Peripheral) : M unit := fun m =>
  (tt, {| mode_ := mode_ m; current_address_ := current_address_ m;
          buffer_ := buffer_ m; tx_bytes_ := tx_bytes_ m;
          rx_bytes_ := rx_bytes_ m; spi_ := v |}, []).

(** The machine a computation leaves and the effects it emits. *)
Definition after {A} (c : M A) (m : Machine) : Machine := snd (fst (c m)).
Definition output {A} (c : M A) (m : Machine) : list effect := snd (c m).

(** ** The handlers *)

Section Engine.

(** The application's start handler: the buffers it hands out for an
    address.  The end handler returns nothing; its invocations are
    recorded as [end_call] effects. *)
Variable start_handler_ : Z -> Buffer.

(** What a read of [DR] gives while the receive FIFO is empty, and the
    number of byte writes the transmit side accepts right after the
    peripheral has been reset; both are properties of the hardware. *)
Variable dr_idle : byte.
Variable reset_room : nat.

(** [spi_->SR & SPI_SR_RXNE] *)
Definition SR_RXNE : M bool :=
  fifo <- get (fun m => rx_fifo (spi_ m));;
  ret (match fifo with [] => false | _ :: _ => true end).

(** [spi_->SR & SPI_SR_TXE] *)
Definition SR_TXE : M bool :=
  room <- get (fun m => tx_room (spi_ m));;
  ret (match room with O => false | S _ => true end).

(** A read access to [spi_->DR]: it takes the oldest byte out of the
    receive FIFO. *)
Definition load_DR : M byte :=
  p <- get spi_;;
  match rx_fifo p with
  | [] => emit (DR_read dr_idle);; ret dr_idle
  | b :: rest =>
      set_spi {| rx_fifo := rest; tx_room := tx_room p |};;
      emit (DR_read b);; ret b
  end.

(** [ReadRegister(&spi_->DR)] *)
Definition ReadRegister_DR : M byte := load_DR.

(** [WriteRegister(&spi_->DR, value)] *)
Definition WriteRegister_DR (value : byte) : M unit :=
  p <- get spi_;;
  set_spi {| rx_fifo := rx_fifo p; tx_room := pred (tx_room p) |};;
  emit (DR_write value).

(** [Init()]: the peripheral is reset ([EnableSPI] pulses its reset
    line), configured again and enabled. *)
Definition Init : M unit :=
  emit spi_reinit;;
  set_spi {| rx_fifo := []; tx_room := reset_room |}.

(** [PollMillisecond()] *)
Definition PollMillisecond : M unit := emit (led_write true).

(** [(this_offset < buffer_.tx.size()) ? buffer_.tx[this_offset] : 0],
    converted to the [uint8_t] that [WriteRegister] takes. *)
Definition tx_byte_at (tx : list byte) (this_offset : Z) : byte :=
  if this_offset <? Z.of_nat (length tx)
  then default x00 (tx !! Z.to_nat this_offset)
  else x00.

(** One turn of the loop of [ISR_PrepareTx]. *)
Definition ISR_PrepareTx_body : M unit :=
  this_offset <- get tx_bytes_;;
  set_tx_bytes (size_t_wrap (this_offset + 1));;
  b <- get buffer_;;
  WriteRegister_DR (tx_byte_at (tx b) this_offset).

Fixpoint ISR_PrepareTx_loop (fuel : nat) : M unit :=
  match fuel with
  | O => ret tt
  | S fuel' =>
      txe <- SR_TXE;;
      if txe : bool then ISR_PrepareTx_body;; ISR_PrepareTx_loop fuel'
      else ret tt
  end.

(** [ISR_PrepareTx()]: [while (spi_->SR & SPI_SR_TXE) { ... }].  Every
    turn takes one unit of transmit room, so the room bounds the
    number of turns. *)
Definition ISR_PrepareTx : M unit :=
  room <- get (fun m => tx_room (spi_ m));;
  ISR_PrepareTx_loop room.

(** [buffer_.rx[index] = value].  A negative index (the engine reaches
    one only after [rx_bytes_] has overflowed) addresses memory before
    the view and leaves the viewed bytes as they are. *)
Definition rx_assign (index : Z) (value : byte) (rx : list byte)
  : list byte :=
  if 0 <=? index then <[Z.to_nat index := value]> rx else rx.

(** The [switch (mode_)] of [ISR_SPI].  [buffer_.rx.size()] is signed
    in [mjlib::base::string_span], as the signed counter it is
    compared with is. *)
Definition ISR_SPI_body : M unit :=
  mode <- get mode_;;
  match mode with
  | kInactive =>
      _ <- ReadRegister_DR;; ret tt
  | kWaitingAddress =>
      a <- ReadRegister_DR;;
      set_current_address (u8 a);;
      address <- get current_address_;;
      emit (start_call address);;
      set_buffer (start_handler_ address);;
      ISR_PrepareTx;;
      set_mode kTransfer
  | kTransfer =>
      this_byte <- ReadRegister_DR;;
      n <- get rx_bytes_;;
      b <- get buffer_;;
      (if n <? Z.of_nat (length (rx b))
       then emit (rx_store n this_byte);;
            set_buffer {| tx := tx b; rx := rx_assign n this_byte (rx b) |}
       else ret tt);;
      n <- get rx_bytes_;;
      set_rx_bytes (ssize_t_wrap (n + 1));;
      ISR_PrepareTx
  end.

Fixpoint ISR_SPI_loop (fuel : nat) : M unit :=
  match fuel with
  | O => ret tt
  | S fuel' =>
      rxne <- SR_RXNE;;
      if rxne : bool then ISR_SPI_body;; ISR_SPI_loop fuel'
      else ret tt
  end.

(** [ISR_SPI()]: [while (spi_->SR & SPI_SR_RXNE) { switch ... }].
    Every turn reads [DR] once, so the length of the receive FIFO
    bounds the number of turns. *)
Definition ISR_SPI : M unit :=
  pending <- get (fun m => length (rx_fifo (spi_ m)));;
  ISR_SPI_loop pending.

(** [ISR_HandleNssRise()] *)
Definition ISR_HandleNssRise : M unit :=
  mode <- get mode_;;
  (if decide (mode = kTransfer)
   then address <- get current_address_;;
        n <- get rx_bytes_;;
        emit (end_call address n)
   else ret tt);;
  set_tx_bytes 0;;
  set_rx_bytes 0;;
  Init;;
  set_mode kInactive.

(** [ISR_HandleNssFall()].  Its last statement assigns [0x0000]
    through the pointer [(__IO uint16_t * ) spi_->DR].  The operand of
    the cast is the value read from [spi_->DR], not the address of the
    register (compare [WriteRegister(&spi_->DR, ...)]): the statement
    reads the data register and stores a 16 bit zero at the address
    that value denotes.  The store is recorded as an effect; what it
    lands on is outside the members modelled here. *)
Definition ISR_HandleNssFall : M unit :=
  emit (led_write false);;
  set_mode kWaitingAddress;;
  v <- load_DR;;
  emit (wild_store (u8 v) 0).

(** ** The environment *)

(** What can happen to the engine: the two edges of the select line,
    the SPI interrupt, and the foreground's millisecond poll.  By the
    time the SPI interrupt is served the master has clocked the bytes
    [arrived] into the receive FIFO and the transmit side has made
    room for [freed] more bytes. *)
Inductive event :=
| nss_fall
| nss_rise
| spi_irq (arrived : list byte) (freed : nat)
| poll_ms.

Definition hw_exchange (arrived : list byte) (freed : nat) : M unit :=
  p <- get spi_;;
  set_spi {| rx_fifo := rx_fifo p ++ arrived;
             tx_room := (tx_room p + freed)%nat |}.

Definition handle (e : event) : M unit :=
  match e with
  | nss_fall => ISR_HandleNssFall
  | nss_rise => ISR_HandleNssRise
  | spi_irq arrived freed => hw_exchange arrived freed;; ISR_SPI
  | poll_ms => PollMillisecond
  end.

Fixpoint run (evs : list event) : M unit :=
  match evs with
  | [] => ret tt
  | e :: evs' => handle e;; run evs'
  end.

(** The members as their initialisers leave them, with the peripheral
    as the constructor's [Init()] leaves it. *)
Definition initial : Machine :=
  {| mode_ := kInactive; current_address_ := 0;
     buffer_ := {| tx := []; rx := [] |};
     tx_bytes_ := 0; rx_bytes_ := 0;
     spi_ := {| rx_fifo := []; tx_room := reset_room |} |}.

Definition reachable (m : Machine) : Prop :=
  exists evs, after (run evs) initial = m.

End Engine.


Arguments size_t_wrap : simpl never.
Arguments ssize_t_wrap : simpl never.
Arguments u8 : simpl never.
Arguments tx_byte_at : simpl never.
Arguments rx_assign : simpl never.
Arguments ISR_SPI_body : simpl never.

(** ** Reading the output *)

Definition reads (out : list effect) : list byte :=
  omap (fun e => match e with DR_read b => Some b | _ => None end) out.

Definition writes (out : list effect) : list byte :=
  omap (fun e => match e with DR_write b => Some b | _ => None end) out.

Definition stores (out : list effect) : list (Z * byte) :=
  omap (fun e => match e with rx_store i b => Some (i, b) | _ => None end) out.

Definition starts (out : list effect) : list Z :=
  omap (fun e => match e with start_call a => Some a | _ => None end) out.

Definition ends (out : list effect) : list (Z * Z) :=
  omap (fun e => match e with end_call a n => Some (a, n) | _ => None end) out.

(** ** What the loops compute *)

(** The value of [tx_bytes_] after [k] more increments. *)
Fixpoint tx_advance (t : Z) (k : nat) : Z :=
  match k with
  | O => t
  | S k' => tx_advance (size_t_wrap (t + 1)) k'
  end.

(** The bytes that [k] turns of [ISR_PrepareTx] write, from
    [tx_bytes_ = t] on. *)
Fixpoint fills (txv : list byte) (t : Z) (k : nat) : list byte :=
  match k with
  | O => []
  | S k' => tx_byte_at txv t :: fills txv (size_t_wrap (t + 1)) k'
  end.

(** The value of [rx_bytes_] after [k] more increments. *)
Fixpoint rx_advance (n : Z) (k : nat) : Z :=
  match k with
  | O => n
  | S k' => rx_advance (ssize_t_wrap (n + 1)) k'
  end.

(** One received data byte against the view [rxv], at [rx_bytes_ = n]. *)
Definition rx_put (n : Z) (b : byte) (rxv : list byte) : list byte :=
  if n <? Z.of_nat (length rxv) then rx_assign n b rxv else rxv.

(** The view after the data bytes [data], from [rx_bytes_ = n] on, and
    the stores that got it there. *)
Fixpoint rx_fill (n : Z) (data : list byte) (rxv : list byte) : list byte :=
  match data with
  | [] => rxv
  | b :: rest => rx_fill (ssize_t_wrap (n + 1)) rest (rx_put n b rxv)
  end.

Fixpoint rx_stores (n : Z) (size : nat) (data : list byte) : list (Z * byte) :=
  match data with
  | [] => []
  | b :: rest =>
      (if n <? Z.of_nat size then [(n, b)] else [])
        ++ rx_stores (ssize_t_wrap (n + 1)) size rest
  end.

(** The output of [ISR_SPI] in [kTransfer], for the receive FIFO [bs]. *)
Fixpoint transfer_output (txv : list byte) (t : Z) (room : nat)
    (n : Z) (size : nat) (bs : list byte) : list effect :=
  match bs with
  | [] => []
  | b :: rest =>
      DR_read b
        :: (if n <? Z.of_nat size then [rx_store n b] else [])
        ++ map DR_write (fills txv t room)
        ++ transfer_output txv (tx_advance t room) 0
             (ssize_t_wrap (n + 1)) size rest
  end.

(** The transmit room one pass of [ISR_SPI] uses up and leaves: the
    first byte it reads fills all of it. *)
Definition used_room (bs : list byte) (room : nat) : nat :=
  match bs with [] => O | _ :: _ => room end.

Definition left_room (bs : list byte) (room : nat) : nat :=
  match bs with [] => room | _ :: _ => O end.

(** ** Transactions *)

(** The events between the two edges of the select line: SPI interrupts
    and millisecond polls. *)
Definition quiet (e : event) : Prop :=
  match e with
  | spi_irq _ _ | poll_ms => True
  | nss_fall | nss_rise => False
  end.

(** One select cycle: assertion, the events under it, deassertion. *)
Definition transaction (body : list event) : list event :=
  nss_fall :: body ++ [nss_rise].

(** The bytes the master clocks during a list of events, in order. *)
Fixpoint clocked (evs : list event) : list byte :=
  match evs with
  | [] => []
  | spi_irq bs _ :: rest => bs ++ clocked rest
  | _ :: rest => clocked rest
  end.

(** The transmit room that the passes of [ISR_SPI] over a list of
    events fill, and the room left at its end, from [room] free slots. *)
Fixpoint served_room (room : nat) (evs : list event) : nat :=
  match evs with
  | [] => O
  | spi_irq bs f :: rest =>
      (used_room bs (room + f)
       + served_room (left_room bs (room + f)) rest)%nat
  | _ :: rest => served_room room rest
  end.

Fixpoint unserved_room (room : nat) (evs : list event) : nat :=
  match evs with
  | [] => room
  | spi_irq bs f :: rest => unserved_room (left_room bs (room + f)) rest
  | _ :: rest => unserved_room room rest
  end.

(** The bytes of [txv] followed by zeros, [k] of them in all. *)
Definition zero_padded (txv : list byte) (k : nat) : list byte :=
  take k (txv ++ replicate k x00).

(** The view after [data] has been received into it from its start:
    the bytes that fit, then what the view held before. *)
Definition received_into (rxv data : list byte) : list byte :=
  take (length rxv) data ++ drop (length data) rxv.

(** The stores that receiving [data] into a view of [size] bytes makes:
    the [j]-th byte at index [j], for the bytes that fit. *)
Definition stored_at (from : nat) (data : list byte) : list (Z * byte) :=
  imap (fun j b => (Z.of_nat (from + j), b)) data.

(** What holds of every reachable machine between two events: the
    receive FIFO has been drained, and an inactive engine has both
    counters at zero. *)
Definition at_rest (m : Machine) : Prop :=
  rx_fifo (spi_ m) = []
  /\ (mode_ m = kInactive -> tx_bytes_ m = 0 /\ rx_bytes_ m = 0).

(** Two machines agree wherever the handlers look before they write:
    on the mode, the counters and the peripheral, and, during a
    transfer, on the address and the buffers. *)
Definition same_protocol (s1 s2 : Machine) : Prop :=
  rx_fifo (spi_ s1) = []
  /\ mode_ s1 = mode_ s2 /\ tx_bytes_ s1 = tx_bytes_ s2
  /\ rx_bytes_ s1 = rx_bytes_ s2 /\ spi_ s1 = spi_ s2
  /\ (mode_ s1 = kTransfer ->
      current_address_ s1 = current_address_ s2
      /\ buffer_ s1 = buffer_ s2).

(** ** Construction *)

(** [template <typename T> static T merge(T a, T b)] asks of [T] an
    equality and a value-initialised [T()]. *)
Class ValueInit (T : Type) := value_init : T.

Definition merge {T : Type} `{EqDecision T} `{ValueInit T} (a b : T) : T :=
  if decide (a = b) then a else value_init.

(** The peripherals that [pinmap_peripheral] returns are [uint32_t]. *)
#[global] Instance uint32_value_init : ValueInit Z := 0.

(** [nullptr], as the [uint32_t] it is cast from. *)
Definition nullptr : Z := 0.

(** The four pin maps of [PeripheralPins.h] that the constructor uses. *)
Inductive PinMap :=
| PinMap_SPI_MOSI | PinMap_SPI_MISO | PinMap_SPI_SCLK | PinMap_SPI_SSEL.

(** Modelled from the spec: [MJ_ASSERT] (mjlib, not among the sources);
    "construction must fail fatally (process-level abort) if the pin
    binding cannot be resolved to a valid peripheral instance".  A
    failed assertion ends the process: there is no result. *)
Definition MJ_ASSERT {A} (condition : bool) (continue : option A) : option A :=
  if condition then continue else None.

Section Construction.

Variable PinName : Type.

(** [pinmap_peripheral] of the platform: the peripheral a pin belongs
    to in a pin map. *)
Variable pinmap_peripheral : PinName -> PinMap -> Z.

(** [struct Pins] *)
Record Pins := {
  mosi : PinName; miso : PinName; sclk : PinName; ssel : PinName;
  status_led : PinName
}.

(** The value the constructor's lambda gives to [spi_]. *)
Definition resolve_spi (pins : Pins) : Z :=
  let spi_mosi := pinmap_peripheral (mosi pins) PinMap_SPI_MOSI in
  let spi_miso := pinmap_peripheral (miso pins) PinMap_SPI_MISO in
  let spi_sclk := pinmap_peripheral (sclk pins) PinMap_SPI_SCLK in
  let spi_ssel := pinmap_peripheral (ssel pins) PinMap_SPI_SSEL in
  merge spi_mosi (merge spi_miso (merge spi_sclk spi_ssel)).

(** The constructor up to its assertion: the peripheral it goes on
    with, or none when [MJ_ASSERT(spi_ != nullptr)] fails. *)
Definition construct_spi (pins : Pins) : option Z :=
  let spi := resolve_spi pins in
  MJ_ASSERT (negb (spi =? nullptr)) (Some spi).

End Construction.

Arguments mosi {PinName} _.
Arguments miso {PinName} _.
Arguments sclk {PinName} _.
Arguments ssel {PinName} _.
Arguments status_led {PinName} _.
Arguments resolve_spi {PinName} _ _.
Arguments construct_spi {PinName} _ _.

(** ** The platform under the constructor *)

(** The SPI peripherals that [EnableSPI] and [GetSpiIrq] know. *)
Inductive spi_index := spi1 | spi2 | spi3 | spi4.

#[global] Instance spi_index_eq_dec : EqDecision spi_index.
Proof. solve_decision. Defined.

(** The values of [IRQn_Type] that [GetSpiIrq] returns. *)
Inductive IRQn_Type := SPI1_IRQn | SPI2_IRQn | SPI3_IRQn | SPI4_IRQn.

(** The part of [RCC] that [EnableSPI] touches: the two 32 bit reset
    registers, and which SPI clocks [__HAL_RCC_SPIn_CLK_ENABLE()] has
    switched on. *)
Record RCC_TypeDef := {
  APB2RSTR : Z;
  APB1RSTR1 : Z;
  spi_clock : spi_index -> bool
}.

(** [~mask] on a [uint32_t]. *)
Definition u32_not (mask : Z) : Z := Z.land (Z.lnot mask) (Z.ones 32).

(** [reg |= mask; reg &= ~mask;] *)
Definition pulse_reset (reg mask : Z) : Z :=
  Z.land (Z.lor reg mask) (u32_not mask).

Definition clock_on (i : spi_index) (clocks : spi_index -> bool)
  : spi_index -> bool :=
  fun j => if decide (j = i) then true else clocks j.

(** [PullDown] and [PullUp] of [PinMode]. *)
Inductive PinMode := PullDown | PullUp.

(** What the constructor asks of the platform, in program order.
    [HAL_SPI_Init] stands for what [Init()] does after [EnableSPI]: it
    fills in the handle, calls [HAL_SPI_Init], sets [RXNEIE] and enables
    the peripheral. *)
Inductive setup_call (PinName : Type) :=
| pinmap_pinout (pin : PinName) (map : PinMap)
| pin_mode (pin : PinName) (mode : PinMode)
| HAL_SPI_Init (spi : Z)
| nss_rise_attached
| nss_fall_attached
| NVIC_SetVector (irq : IRQn_Type)
| HAL_NVIC_SetPriority (irq : IRQn_Type) (preempt sub : Z)
| HAL_NVIC_EnableIRQ (irq : IRQn_Type).

Arguments pinmap_pinout {PinName} _ _.
Arguments pin_mode {PinName} _ _.
Arguments HAL_SPI_Init {PinName} _.
Arguments nss_rise_attached {PinName}.
Arguments nss_fall_attached {PinName}.
Arguments NVIC_SetVector {PinName} _.
Arguments HAL_NVIC_SetPriority {PinName} _ _ _.
Arguments HAL_NVIC_EnableIRQ {PinName} _.

(** How the constructor ends: in one of the three places where the
    process can die, or with [spi_], the interrupt it enabled and the
    reset and clock controller as [Init()] left it. *)
Inductive ending :=
| assertion_failed
| died_in_EnableSPI
| died_in_GetSpiIrq
| constructed (spi : Z) (irq : IRQn_Type) (rcc : RCC_TypeDef).

Section Platform.

(** [#if defined (SPIn_BASE)]: the peripherals the target has. *)
Variable defined : spi_index -> bool.

(** [SPI1] ... [SPI4], the addresses of the peripherals, and [SPI_1]
    ... [SPI_4], the names that [GetSpiIrq] switches on; both come
    from the headers of the target. *)
Variable SPI : spi_index -> Z.
Variable SPI_ : spi_index -> Z.

(** The reset bits that [EnableSPI] names. *)
Variable RCC_APB2RSTR_SPI1RST : Z.
Variable RCC_APB1RSTR1_SPI2RST : Z.
Variable RCC_APB1RSTR1_SPI3RST : Z.

(** [EnableSPI(spi)]; [mbed_die()] ends the process: there is no
    result. *)
Definition EnableSPI (spi : Z) (rcc : RCC_TypeDef) : option RCC_TypeDef :=
  if defined spi1 && (spi =? SPI spi1) then
    Some {| APB2RSTR := pulse_reset (APB2RSTR rcc) RCC_APB2RSTR_SPI1RST;
            APB1RSTR1 := APB1RSTR1 rcc;
            spi_clock := clock_on spi1 (spi_clock rcc) |}
  else if defined spi2 && (spi =? SPI spi2) then
    Some {| APB2RSTR := APB2RSTR rcc;
            APB1RSTR1 := pulse_reset (APB1RSTR1 rcc) RCC_APB1RSTR1_SPI2RST;
            spi_clock := clock_on spi2 (spi_clock rcc) |}
  else if defined spi3 && (spi =? SPI spi3) then
    Some {| APB2RSTR := APB2RSTR rcc;
            APB1RSTR1 := pulse_reset (APB1RSTR1 rcc) RCC_APB1RSTR1_SPI3RST;
            spi_clock := clock_on spi3 (spi_clock rcc) |}
  else if defined spi4 && (spi =? SPI spi4) then
    Some {| APB2RSTR := pulse_reset (APB2RSTR rcc) RCC_APB2RSTR_SPI1RST;
            APB1RSTR1 := APB1RSTR1 rcc;
            spi_clock := clock_on spi4 (spi_clock rcc) |}
  else None.

(** [u32(value)] *)
Definition u32 (value : Z) : Z := value.

(** [GetSpiIrq(spi)]: the case labels of a [switch] are distinct, so
    the cases are tried in the order they are written. *)
Definition GetSpiIrq (spi : Z) : option IRQn_Type :=
  if defined spi1 && (u32 spi =? SPI_ spi1) then Some SPI1_IRQn
  else if defined spi2 && (u32 spi =? SPI_ spi2) then Some SPI2_IRQn
  else if defined spi3 && (u32 spi =? SPI_ spi3) then Some SPI3_IRQn
  else if defined spi4 && (u32 spi =? SPI_ spi4) then Some SPI4_IRQn
  else None.

(** The peripheral an interrupt belongs to. *)
Definition irq_index (irq : IRQn_Type) : spi_index :=
  match irq with
  | SPI1_IRQn => spi1 | SPI2_IRQn => spi2
  | SPI3_IRQn => spi3 | SPI4_IRQn => spi4
  end.

Variable PinName : Type.
Variable pinmap_peripheral : PinName -> PinMap -> Z.

(** The constructor: [spi_] from the four pins and the assertion on
    it, the pins handed to the peripheral, [Init()] (which begins with
    [EnableSPI]), the two edge handlers, and the SPI interrupt.  The
    result is how it ends and the calls it has made by then. *)
Definition RegisterSPISlave (pins : Pins PinName) (rcc : RCC_TypeDef)
  : ending * list (setup_call PinName) :=
  match construct_spi pinmap_peripheral pins with
  | None => (assertion_failed, [])
  | Some spi =>
      let pin_calls :=
        [pinmap_pinout (mosi pins) PinMap_SPI_MOSI;
         pinmap_pinout (miso pins) PinMap_SPI_MISO;
         pinmap_pinout (sclk pins) PinMap_SPI_SCLK;
         pin_mode (sclk pins) PullDown;
         pin_mode (ssel pins) PullUp] in
      match EnableSPI spi rcc with
      | None => (died_in_EnableSPI, pin_calls)
      | Some rcc' =>
          let init_calls :=
            pin_calls ++ [HAL_SPI_Init spi; nss_rise_attached;
                          nss_fall_attached] in
          match GetSpiIrq spi with
          | None => (died_in_GetSpiIrq, init_calls)
          | Some irq =>
              (constructed spi irq rcc',
               init_calls ++ [NVIC_SetVector irq;
                              HAL_NVIC_SetPriority irq 0 0;
                              HAL_NVIC_EnableIRQ irq])
          end
      end
  end.

End Platform.

(** ** The scenario of the specification *)

(** Address [0x10], three bytes to transmit, room for five received
    bytes; the peripheral reads [0x00] while idle and takes one byte
    after a reset. *)
Definition demo_start (address : Z) : Buffer :=
  {| tx := [xaa; xbb; xcc]; rx := [x00; x00; x00; x00; x00] |}.

Definition demo_body : list event :=
  [spi_irq [x10] 0; spi_irq [x01] 1; spi_irq [x02] 1;
   spi_irq [x03] 1; spi_irq [x04] 1].

(** The engine in the middle of a transfer: the address and two data
    bytes have been served. *)
Definition demo_mid : Machine :=
  after (run demo_start x00 1 [nss_fall; spi_irq [x10; x01; x02] 2])
    (initial 1).

(** ** A platform to run the constructor on *)

(** Four peripherals, their names equal to their addresses, the reset
    bits at 12, 14 and 15, and four pins of the first peripheral. *)
Definition demo_defined (i : spi_index) : bool := true.

Definition demo_SPI (i : spi_index) : Z :=
  match i with
  | spi1 => 0x40013000 | spi2 => 0x40003800
  | spi3 => 0x40003C00 | spi4 => 0x40013C00
  end.

Definition demo_rcc : RCC_TypeDef :=
  {| APB2RSTR := 0x1001; APB1RSTR1 := 0; spi_clock := fun _ => false |}.

Definition demo_pinmap (pin : nat) (map : PinMap) : Z := demo_SPI spi1.

Definition demo_pins : Pins nat :=
  {| mosi := 1%nat; miso := 2%nat; sclk := 3%nat; ssel := 4%nat;
     status_led := 5%nat |}.

(** An engine in the middle of [ISR_SPI]: two bytes have been queued
    for transmission and three transmit slots are free. *)
Definition demo_filling : Machine :=
  {| mode_ := kTransfer; current_address_ := 16; buffer_ := demo_start 16;
     tx_bytes_ := 2; rx_bytes_ := 1;
     spi_ := {| rx_fifo := []; tx_room := 3 |} |}.

(** ** The mode, on its own *)

(** The mode after an event, from the mode before it: what the
    assignments to [mode_] in the three handlers come to. *)
Definition mode_step (mode : Mode) (e : event) : Mode :=
  match e with
  | nss_fall => kWaitingAddress
  | nss_rise => kInactive
  | spi_irq (_ :: _) _ =>
      match mode with
      | kWaitingAddress => kTransfer
      | _ => mode
      end
  | spi_irq [] _ | poll_ms => mode
  end.

(** ** The callbacks, paired *)

(** The callbacks of an output, read from left to right against the
    address of the transfer that has been started and not yet ended:
    a start callback opens a transfer for its address, an end callback
    closes the open transfer and must carry its address.  The result is
    the transfer left open, or nothing when an end callback comes with
    no transfer open or with another address. *)
Fixpoint pair_calls (open : option Z) (out : list effect)
  : option (option Z) :=
  match out with
  | [] => Some open
  | start_call a :: rest => pair_calls (Some a) rest
  | end_call a _ :: rest =>
      match open with
      | Some a' => if a =? a' then pair_calls None rest else None
      | None => None
      end
  | _ :: rest => pair_calls open rest
  end.

(** The transfer that the callbacks have left open is the one the
    engine is in. *)
Definition open_matches (m : Machine) (open : option Z) : Prop :=
  mode_ m = kTransfer -> open = Some (current_address_ m).

(** A list of events without its millisecond polls, and an output
    without the writes of the status LED that the polls make. *)
Definition drop_polls (evs : list event) : list event :=
  omap (fun e => match e with poll_ms => None | _ => Some e end) evs.

Definition drop_led_high (out : list effect) : list effect :=
  omap (fun e => match e with led_write true => None | _ => Some e end) out.

(** ** The counters and the views, composed *)

Lemma tx_advance_add t j k :
  tx_advance t (j + k) = tx_advance (tx_advance t j) k.
Proof. revert t. induction j as [|j IH]; intros t; [reflexivity|apply IH]. Qed.

Lemma rx_advance_add n j k :
  rx_advance n (j + k) = rx_advance (rx_advance n j) k.
Proof. revert n. induction j as [|j IH]; intros n; [reflexivity|apply IH]. Qed.

Lemma fills_add txv t j k :
  fills txv t (j + k) = fills txv t j ++ fills txv (tx_advance t j) k.
Proof.
  revert t. induction j as [|j IH]; intros t; [reflexivity|].
  cbn. f_equal. apply IH.
Qed.

Lemma rx_put_length n b rxv : length (rx_put n b rxv) = length rxv.
Proof.
  unfold rx_put, rx_assign.
  destruct (n <? _), (0 <=? n); rewrite ?length_insert; reflexivity.
Qed.

Lemma rx_fill_length n data rxv : length (rx_fill n data rxv) = length rxv.
Proof.
  revert n rxv. induction data as [|b data IH]; intros n rxv; [reflexivity|].
  cbn. rewrite IH. apply rx_put_length.
Qed.

Lemma rx_fill_app n data1 data2 rxv :
  rx_fill n (data1 ++ data2) rxv
  = rx_fill (rx_advance n (length data1)) data2 (rx_fill n data1 rxv).
Proof.
  revert n rxv. induction data1 as [|b data1 IH]; intros n rxv; [reflexivity|].
  cbn. apply IH.
Qed.

Lemma rx_stores_app n size data1 data2 :
  rx_stores n size (data1 ++ data2)
  = rx_stores n size data1
      ++ rx_stores (rx_advance n (length data1)) size data2.
Proof.
  revert n. induction data1 as [|b data1 IH]; intros n; [reflexivity|].
  cbn. rewrite IH, app_assoc. reflexivity.
Qed.

(** ** The counters and the views, within the range of the counters *)

Lemma size_t_wrap_small z : 0 <= z < 2 ^ 32 -> size_t_wrap z = z.
Proof. intros H. unfold size_t_wrap. apply Z.mod_small, H. Qed.

Lemma ssize_t_wrap_small z : - 2 ^ 31 <= z < 2 ^ 31 -> ssize_t_wrap z = z.
Proof. intros H. unfold ssize_t_wrap. rewrite Z.mod_small; lia. Qed.

Lemma tx_advance_small t k :
  0 <= t -> t + Z.of_nat k < 2 ^ 32 -> tx_advance t k = t + Z.of_nat k.
Proof.
  revert t. induction k as [|k IH]; intros t Ht Hk; cbn [tx_advance]; [lia|].
  rewrite size_t_wrap_small by lia. rewrite IH; lia.
Qed.

Lemma rx_advance_small n k :
  0 <= n -> n + Z.of_nat k < 2 ^ 31 -> rx_advance n k = n + Z.of_nat k.
Proof.
  revert n. induction k as [|k IH]; intros n Hn Hk; cbn [rx_advance]; [lia|].
  rewrite ssize_t_wrap_small by lia. rewrite IH; lia.
Qed.

Lemma tx_byte_at_lookup txv (i k : nat) :
  (i < k)%nat ->
  (txv ++ replicate k x00) !! i = Some (tx_byte_at txv (Z.of_nat i)).
Proof.
  intros Hi. unfold tx_byte_at. rewrite Nat2Z.id.
  destruct (Z.ltb_spec (Z.of_nat i) (Z.of_nat (length txv))) as [Hlt|Hge].
  - rewrite lookup_app_l by lia.
    destruct (lookup_lt_is_Some_2 txv i) as [x ->]; [lia|reflexivity].
  - rewrite lookup_app_r by lia. apply lookup_replicate_2. lia.
Qed.

Lemma fills_lookup txv t k (i : nat) :
  0 <= t -> t + Z.of_nat k <= 2 ^ 32 -> (i < k)%nat ->
  fills txv t k !! i = Some (tx_byte_at txv (t + Z.of_nat i)).
Proof.
  revert t i. induction k as [|k IH]; intros t i Ht Hk Hi; [lia|].
  destruct i as [|i]; cbn [fills].
  { cbn. do 2 f_equal. lia. }
  cbn [lookup list_lookup]. rewrite size_t_wrap_small by lia.
  rewrite IH by lia. do 2 f_equal. lia.
Qed.

Lemma fills_length txv t k : length (fills txv t k) = k.
Proof. revert t. induction k as [|k IH]; intros t; cbn; [|rewrite IH]; done. Qed.

Lemma fills_zero_padded txv k :
  Z.of_nat k <= 2 ^ 32 -> fills txv 0 k = zero_padded txv k.
Proof.
  intros Hk. apply list_eq. intros i. unfold zero_padded.
  destruct (decide (i < k)%nat) as [Hi|Hi].
  - rewrite fills_lookup, lookup_take_lt, (tx_byte_at_lookup txv i k) by lia.
    reflexivity.
  - rewrite lookup_take_ge by lia. apply lookup_ge_None_2.
    rewrite fills_length. lia.
Qed.

Lemma rx_fill_small (i : nat) data rxv :
  Z.of_nat (i + length data) < 2 ^ 31 ->
  rx_fill (Z.of_nat i) data rxv
  = take i rxv ++ take (length rxv - i) data ++ drop (i + length data) rxv.
Proof.
  revert i rxv. induction data as [|b data IH]; intros i rxv Hb.
  { cbn [rx_fill length]. rewrite take_nil, Nat.add_0_r. cbn [app].
    symmetry. apply take_drop. }
  cbn [rx_fill length] in *.
  rewrite ssize_t_wrap_small by lia.
  replace (Z.of_nat i + 1) with (Z.of_nat (S i)) by lia.
  rewrite IH, rx_put_length by lia.
  unfold rx_put, rx_assign.
  destruct (Z.ltb_spec (Z.of_nat i) (Z.of_nat (length rxv))) as [Hlt|Hge].
  - destruct (Z.leb_spec 0 (Z.of_nat i)); [|lia]. rewrite Nat2Z.id.
    destruct (lookup_lt_is_Some_2 rxv i) as [x Hx]; [lia|].
    rewrite (take_S_r (<[i:=b]> rxv) i b)
      by (rewrite list_lookup_insert_eq by lia; reflexivity).
    rewrite take_insert_ge, drop_insert_lt by lia.
    replace (length rxv - i)%nat with (S (length rxv - S i)) by lia.
    cbn [take]. rewrite <- app_assoc. cbn [app].
    replace (S i + length data)%nat with (i + S (length data))%nat by lia.
    reflexivity.
  - replace (length rxv - S i)%nat with O by lia.
    replace (length rxv - i)%nat with O by lia.
    rewrite !take_0, !take_ge, !drop_ge by lia. reflexivity.
Qed.

Lemma rx_fill_received data rxv :
  Z.of_nat (length data) < 2 ^ 31 ->
  rx_fill 0 data rxv = received_into rxv data.
Proof.
  intros Hb. change 0 with (Z.of_nat 0).
  rewrite rx_fill_small by (cbn [plus]; lia).
  unfold received_into. rewrite take_0, Nat.sub_0_r. reflexivity.
Qed.

Lemma rx_stores_small (i : nat) size data :
  Z.of_nat (i + length data) < 2 ^ 31 ->
  rx_stores (Z.of_nat i) size data = stored_at i (take (size - i) data).
Proof.
  revert i. induction data as [|b data IH]; intros i Hb.
  { rewrite take_nil. reflexivity. }
  cbn [rx_stores length] in *.
  rewrite ssize_t_wrap_small by lia.
  replace (Z.of_nat i + 1) with (Z.of_nat (S i)) by lia.
  rewrite IH by lia. unfold stored_at.
  destruct (Z.ltb_spec (Z.of_nat i) (Z.of_nat size)) as [Hlt|Hge].
  - replace (size - i)%nat with (S (size - S i)) by lia.
    cbn [take imap app]. rewrite Nat.add_0_r. f_equal.
    apply imap_ext. intros j x _. cbn. do 2 f_equal. lia.
  - replace (size - S i)%nat with O by lia.
    replace (size - i)%nat with O by lia. reflexivity.
Qed.

Lemma served_room_app room evs1 evs2 :
  served_room room (evs1 ++ evs2)
  = (served_room room evs1
     + served_room (unserved_room room evs1) evs2)%nat.
Proof.
  revert room. induction evs1 as [|e evs1 IH]; intros room; [reflexivity|].
  destruct e; cbn; rewrite ?IH; lia.
Qed.

Lemma unserved_room_app room evs1 evs2 :
  unserved_room room (evs1 ++ evs2)
  = unserved_room (unserved_room room evs1) evs2.
Proof.
  revert room. induction evs1 as [|e evs1 IH]; intros room; [reflexivity|].
  destruct e; cbn; rewrite ?IH; reflexivity.
Qed.

(** The events of a select cycle in which a byte is clocked split at
    the interrupt that serves the first one. *)
Lemma first_byte body a data :
  Forall quiet body -> clocked body = a :: data ->
  exists pre ds f post,
    body = pre ++ spi_irq (a :: ds) f :: post
    /\ Forall quiet pre /\ clocked pre = []
    /\ Forall quiet post /\ data = ds ++ clocked post.
Proof.
  induction 1 as [|e body He Hbody IH]; intros Hc; [discriminate|].
  destruct e as [| |[|b bs] f|]; try contradiction; cbn in Hc.
  - destruct (IH Hc) as (pre & ds & f' & post & -> & Hpre & Hcp & Hpost & ->).
    exists (spi_irq [] f :: pre), ds, f', post.
    repeat split; [constructor|..]; done.
  - injection Hc as -> <-.
    exists [], bs, f, body. repeat split; [constructor|done].
  - destruct (IH Hc) as (pre & ds & f' & post & -> & Hpre & Hcp & Hpost & ->).
    exists (poll_ms :: pre), ds, f', post.
    repeat split; [constructor|..]; done.
Qed.

(** ** Running a computation *)

Lemma bind_eq {A B} (c : M A) (k : A -> M B) m a m1 out1 :
  c m = (a, m1, out1) ->
  bind c k m = (let '(b, m2, out2) := k a m1 in (b, m2, out1 ++ out2)).
Proof. intros E. unfold bind. rewrite E. reflexivity. Qed.

Lemma after_eq {A} (c : M A) m a m' out :
  c m = (a, m', out) -> after c m = m'.
Proof. unfold after. intros ->. reflexivity. Qed.

Lemma output_eq {A} (c : M A) m a m' out :
  c m = (a, m', out) -> output c m = out.
Proof. unfold output. intros ->. reflexivity. Qed.

(** Replace what a computation leaves and emits by what its
    specification [L] says. *)
Tactic Notation "by_spec" uconstr(L) :=
  rewrite ?(after_eq _ _ _ _ _ L), ?(output_eq _ _ _ _ _ L).

(** ** The handlers, one by one *)

Section Handlers.

Variable start_handler_ : Z -> Buffer.
Variable dr_idle : byte.
Variable reset_room : nat.

Local Abbreviation ISR_SPI_body' := (ISR_SPI_body start_handler_ dr_idle).
Local Abbreviation ISR_SPI_loop' := (ISR_SPI_loop start_handler_ dr_idle).
Local Abbreviation ISR_SPI' := (ISR_SPI start_handler_ dr_idle).

Lemma ISR_PrepareTx_loop_spec k mode addr buf t n fifo :
  ISR_PrepareTx_loop k
    {| mode_ := mode; current_address_ := addr; buffer_ := buf;
       tx_bytes_ := t; rx_bytes_ := n;
       spi_ := {| rx_fifo := fifo; tx_room := k |} |}
  = (tt,
     {| mode_ := mode; current_address_ := addr; buffer_ := buf;
        tx_bytes_ := tx_advance t k; rx_bytes_ := n;
        spi_ := {| rx_fifo := fifo; tx_room := 0 |} |},
     map DR_write (fills (tx buf) t k)).
Proof.
  revert t. induction k as [|k IH]; intros t; [reflexivity|].
  cbn. rewrite IH. reflexivity.
Qed.

Lemma ISR_PrepareTx_spec mode addr buf t n fifo room :
  ISR_PrepareTx
    {| mode_ := mode; current_address_ := addr; buffer_ := buf;
       tx_bytes_ := t; rx_bytes_ := n;
       spi_ := {| rx_fifo := fifo; tx_room := room |} |}
  = (tt,
     {| mode_ := mode; current_address_ := addr; buffer_ := buf;
        tx_bytes_ := tx_advance t room; rx_bytes_ := n;
        spi_ := {| rx_fifo := fifo; tx_room := 0 |} |},
     map DR_write (fills (tx buf) t room)).
Proof.
  unfold ISR_PrepareTx, bind, get. cbn.
  rewrite ISR_PrepareTx_loop_spec. reflexivity.
Qed.

(** The loop of [ISR_PrepareTx] stops because [TXE] has cleared, not
    because its fuel is spent: more fuel changes nothing, and no
    transmit room is left. *)
Lemma ISR_PrepareTx_loop_fuel extra k mode addr buf t n fifo :
  let m := {| mode_ := mode; current_address_ := addr; buffer_ := buf;
              tx_bytes_ := t; rx_bytes_ := n;
              spi_ := {| rx_fifo := fifo; tx_room := k |} |} in
  ISR_PrepareTx_loop (k + extra) m = ISR_PrepareTx_loop k m.
Proof.
  cbn zeta. revert t. induction k as [|k IH]; intros t.
  { destruct extra; reflexivity. }
  cbn. rewrite IH. reflexivity.
Qed.

Lemma ISR_PrepareTx_leaves_no_room m :
  tx_room (spi_ (after ISR_PrepareTx m)) = O.
Proof.
  destruct m as [mode addr buf t n [fifo room]].
  rewrite (after_eq _ _ _ _ _ (ISR_PrepareTx_spec _ _ _ _ _ _ _)).
  reflexivity.
Qed.

Lemma ISR_SPI_body_inactive addr buf t n b rest room :
  ISR_SPI_body'
    {| mode_ := kInactive; current_address_ := addr; buffer_ := buf;
       tx_bytes_ := t; rx_bytes_ := n;
       spi_ := {| rx_fifo := b :: rest; tx_room := room |} |}
  = (tt,
     {| mode_ := kInactive; current_address_ := addr; buffer_ := buf;
        tx_bytes_ := t; rx_bytes_ := n;
        spi_ := {| rx_fifo := rest; tx_room := room |} |},
     [DR_read b]).
Proof. reflexivity. Qed.

Lemma ISR_SPI_body_waiting addr buf t n a rest room :
  ISR_SPI_body'
    {| mode_ := kWaitingAddress; current_address_ := addr; buffer_ := buf;
       tx_bytes_ := t; rx_bytes_ := n;
       spi_ := {| rx_fifo := a :: rest; tx_room := room |} |}
  = (tt,
     {| mode_ := kTransfer; current_address_ := u8 a;
        buffer_ := start_handler_ (u8 a);
        tx_bytes_ := tx_advance t room; rx_bytes_ := n;
        spi_ := {| rx_fifo := rest; tx_room := 0 |} |},
     DR_read a :: start_call (u8 a)
       :: map DR_write (fills (tx (start_handler_ (u8 a))) t room)).
Proof.
  unfold ISR_SPI_body. cbn.
  erewrite bind_eq by apply ISR_PrepareTx_spec.
  cbn. rewrite app_nil_r. reflexivity.
Qed.

Lemma ISR_SPI_body_transfer addr txv rxv t n b rest room :
  ISR_SPI_body'
    {| mode_ := kTransfer; current_address_ := addr;
       buffer_ := {| tx := txv; rx := rxv |};
       tx_bytes_ := t; rx_bytes_ := n;
       spi_ := {| rx_fifo := b :: rest; tx_room := room |} |}
  = (tt,
     {| mode_ := kTransfer; current_address_ := addr;
        buffer_ := {| tx := txv; rx := rx_put n b rxv |};
        tx_bytes_ := tx_advance t room;
        rx_bytes_ := ssize_t_wrap (n + 1);
        spi_ := {| rx_fifo := rest; tx_room := 0 |} |},
     DR_read b
       :: (if n <? Z.of_nat (length rxv) then [rx_store n b] else [])
       ++ map DR_write (fills txv t room)).
Proof.
  unfold ISR_SPI_body, rx_put. cbn.
  destruct (n <? Z.of_nat (length rxv)); cbn;
    rewrite ISR_PrepareTx_loop_spec; cbn; rewrite ?app_nil_r; reflexivity.
Qed.

Lemma ISR_SPI_loop_step fuel m b rest :
  rx_fifo (spi_ m) = b :: rest ->
  ISR_SPI_loop' (S fuel) m
  = bind ISR_SPI_body' (fun _ => ISR_SPI_loop' fuel) m.
Proof.
  destruct m as [mode addr buf t n [fifo room]]; cbn; intros ->.
  unfold bind. cbn.
  destruct (ISR_SPI_body' _) as [[v m1] out1].
  destruct (ISR_SPI_loop' fuel m1) as [[v2 m2] out2]. reflexivity.
Qed.

Lemma ISR_SPI_unfold m :
  ISR_SPI' m = ISR_SPI_loop' (length (rx_fifo (spi_ m))) m.
Proof.
  unfold ISR_SPI, bind, get.
  destruct (ISR_SPI_loop' _ m) as [[[] m'] out]. reflexivity.
Qed.

(** Every turn of the loop of [ISR_SPI] takes one byte out of the
    receive FIFO, whatever the mode. *)
Lemma ISR_SPI_body_pops m b rest :
  rx_fifo (spi_ m) = b :: rest ->
  rx_fifo (spi_ (after ISR_SPI_body' m)) = rest.
Proof.
  destruct m as [[] addr [txv rxv] t n [fifo room]]; cbn; intros ->.
  - reflexivity.
  - rewrite (after_eq _ _ _ _ _ (ISR_SPI_body_waiting _ _ _ _ _ _ _)).
    reflexivity.
  - rewrite (after_eq _ _ _ _ _ (ISR_SPI_body_transfer _ _ _ _ _ _ _ _)).
    reflexivity.
Qed.

(** So the loop stops because [RXNE] has cleared, not because its fuel
    is spent: more fuel changes nothing, and the FIFO is left empty. *)
Lemma ISR_SPI_loop_fuel extra m :
  ISR_SPI_loop' (length (rx_fifo (spi_ m)) + extra) m
  = ISR_SPI_loop' (length (rx_fifo (spi_ m))) m.
Proof.
  remember (rx_fifo (spi_ m)) as bs eqn:Hbs. symmetry in Hbs.
  revert m Hbs. induction bs as [|b rest IH]; intros m Hbs.
  { destruct m as [mode addr buf t n [fifo room]]; cbn in Hbs; subst fifo.
    destruct extra; reflexivity. }
  cbn [length plus]. rewrite !(ISR_SPI_loop_step _ m b rest Hbs).
  pose proof (ISR_SPI_body_pops m b rest Hbs) as Hpop.
  unfold after in Hpop. unfold bind.
  destruct (ISR_SPI_body' m) as [[[] m1] out1]; cbn in Hpop.
  rewrite (IH m1 Hpop). reflexivity.
Qed.

Lemma ISR_SPI_drains m : rx_fifo (spi_ (after ISR_SPI' m)) = [].
Proof.
  unfold after. rewrite ISR_SPI_unfold.
  remember (rx_fifo (spi_ m)) as bs eqn:Hbs. symmetry in Hbs.
  revert m Hbs. induction bs as [|b rest IH]; intros m Hbs; [exact Hbs|].
  cbn [length]. rewrite (ISR_SPI_loop_step _ m b rest Hbs).
  pose proof (ISR_SPI_body_pops m b rest Hbs) as Hpop.
  unfold after in Hpop. unfold bind.
  destruct (ISR_SPI_body' m) as [[[] m1] out1]; cbn in Hpop.
  specialize (IH m1 Hpop).
  destruct (ISR_SPI_loop' (length rest) m1) as [[[] m2] out2]. exact IH.
Qed.

Lemma ISR_SPI_loop_inactive bs addr buf t n room :
  ISR_SPI_loop' (length bs)
    {| mode_ := kInactive; current_address_ := addr; buffer_ := buf;
       tx_bytes_ := t; rx_bytes_ := n;
       spi_ := {| rx_fifo := bs; tx_room := room |} |}
  = (tt,
     {| mode_ := kInactive; current_address_ := addr; buffer_ := buf;
        tx_bytes_ := t; rx_bytes_ := n;
        spi_ := {| rx_fifo := []; tx_room := room |} |},
     map DR_read bs).
Proof.
  induction bs as [|b rest IH]; [reflexivity|].
  cbn [length]. erewrite ISR_SPI_loop_step by reflexivity.
  erewrite bind_eq by apply ISR_SPI_body_inactive.
  rewrite IH. reflexivity.
Qed.

Lemma ISR_SPI_loop_transfer bs addr txv rxv t n room :
  ISR_SPI_loop' (length bs)
    {| mode_ := kTransfer; current_address_ := addr;
       buffer_ := {| tx := txv; rx := rxv |};
       tx_bytes_ := t; rx_bytes_ := n;
       spi_ := {| rx_fifo := bs; tx_room := room |} |}
  = (tt,
     {| mode_ := kTransfer; current_address_ := addr;
        buffer_ := {| tx := txv; rx := rx_fill n bs rxv |};
        tx_bytes_ := tx_advance t (used_room bs room);
        rx_bytes_ := rx_advance n (length bs);
        spi_ := {| rx_fifo := []; tx_room := left_room bs room |} |},
     transfer_output txv t room n (length rxv) bs).
Proof.
  revert rxv t n room.
  induction bs as [|b rest IH]; intros rxv t n room; [reflexivity|].
  cbn [length]. erewrite ISR_SPI_loop_step by reflexivity.
  erewrite bind_eq by apply ISR_SPI_body_transfer.
  rewrite IH, rx_put_length. cbn.
  replace (tx_advance (tx_advance t room) (used_room rest 0))
    with (tx_advance t room) by (destruct rest; reflexivity).
  replace (left_room rest 0) with O by (destruct rest; reflexivity).
  rewrite <- app_assoc. reflexivity.
Qed.

(** The projections of the output of a pass in [kTransfer]. *)

Lemma reads_app o1 o2 : reads (o1 ++ o2) = reads o1 ++ reads o2.
Proof. apply omap_app. Qed.
Lemma writes_app o1 o2 : writes (o1 ++ o2) = writes o1 ++ writes o2.
Proof. apply omap_app. Qed.
Lemma stores_app o1 o2 : stores (o1 ++ o2) = stores o1 ++ stores o2.
Proof. apply omap_app. Qed.
Lemma starts_app o1 o2 : starts (o1 ++ o2) = starts o1 ++ starts o2.
Proof. apply omap_app. Qed.
Lemma ends_app o1 o2 : ends (o1 ++ o2) = ends o1 ++ ends o2.
Proof. apply omap_app. Qed.

Lemma projections_DR_write l :
  reads (map DR_write l) = [] /\ writes (map DR_write l) = l
  /\ stores (map DR_write l) = [] /\ starts (map DR_write l) = []
  /\ ends (map DR_write l) = [].
Proof.
  induction l as [|b l (IH1 & IH2 & IH3 & IH4 & IH5)]; [done|].
  repeat split; cbn; [apply IH1|f_equal; apply IH2|apply IH3|apply IH4|apply IH5].
Qed.

Lemma projections_DR_read l :
  reads (map DR_read l) = l /\ writes (map DR_read l) = []
  /\ stores (map DR_read l) = [] /\ starts (map DR_read l) = []
  /\ ends (map DR_read l) = [].
Proof.
  induction l as [|b l (IH1 & IH2 & IH3 & IH4 & IH5)]; [done|].
  repeat split; cbn; [f_equal; apply IH1|apply IH2|apply IH3|apply IH4|apply IH5].
Qed.

Lemma projections_transfer_output txv t room n size bs :
  let out := transfer_output txv t room n size bs in
  reads out = bs /\ writes out = fills txv t (used_room bs room)
  /\ stores out = rx_stores n size bs /\ starts out = [] /\ ends out = [].
Proof.
  cbn zeta. revert t room n.
  induction bs as [|b rest IH]; intros t room n; [done|].
  destruct (IH (tx_advance t room) O (ssize_t_wrap (n + 1)))
    as (IH1 & IH2 & IH3 & IH4 & IH5).
  destruct (projections_DR_write (fills txv t room))
    as (W1 & W2 & W3 & W4 & W5).
  replace (used_room rest 0) with O in IH2 by (destruct rest; reflexivity).
  cbn [transfer_output rx_stores used_room].
  change (DR_read b :: ?l) with ([DR_read b] ++ l).
  rewrite !reads_app, !writes_app, !stores_app, !starts_app, !ends_app.
  rewrite IH1, IH2, IH3, IH4, IH5, W1, W2, W3, W4, W5.
  destruct (n <? Z.of_nat size); cbn; rewrite ?app_nil_r; done.
Qed.

(** *** One event *)

Local Abbreviation handle' := (handle start_handler_ dr_idle reset_room).
Local Abbreviation run' := (run start_handler_ dr_idle reset_room).

Lemma hw_exchange_then (c : M unit) bs f mode addr buf t n room :
  (hw_exchange bs f;; c)
    {| mode_ := mode; current_address_ := addr; buffer_ := buf;
       tx_bytes_ := t; rx_bytes_ := n;
       spi_ := {| rx_fifo := []; tx_room := room |} |}
  = c {| mode_ := mode; current_address_ := addr; buffer_ := buf;
         tx_bytes_ := t; rx_bytes_ := n;
         spi_ := {| rx_fifo := bs; tx_room := (room + f)%nat |} |}.
Proof.
  unfold bind, hw_exchange, get, set_spi. cbn.
  destruct (c _) as [[[] m'] out]. reflexivity.
Qed.

Lemma spi_irq_inactive bs f addr buf t n room :
  handle' (spi_irq bs f)
    {| mode_ := kInactive; current_address_ := addr; buffer_ := buf;
       tx_bytes_ := t; rx_bytes_ := n;
       spi_ := {| rx_fifo := []; tx_room := room |} |}
  = (tt,
     {| mode_ := kInactive; current_address_ := addr; buffer_ := buf;
        tx_bytes_ := t; rx_bytes_ := n;
        spi_ := {| rx_fifo := []; tx_room := (room + f)%nat |} |},
     map DR_read bs).
Proof.
  cbn [handle]. rewrite hw_exchange_then, ISR_SPI_unfold.
  apply ISR_SPI_loop_inactive.
Qed.

Lemma spi_irq_transfer bs f addr txv rxv t n room :
  handle' (spi_irq bs f)
    {| mode_ := kTransfer; current_address_ := addr;
       buffer_ := {| tx := txv; rx := rxv |};
       tx_bytes_ := t; rx_bytes_ := n;
       spi_ := {| rx_fifo := []; tx_room := room |} |}
  = (tt,
     {| mode_ := kTransfer; current_address_ := addr;
        buffer_ := {| tx := txv; rx := rx_fill n bs rxv |};
        tx_bytes_ := tx_advance t (used_room bs (room + f));
        rx_bytes_ := rx_advance n (length bs);
        spi_ := {| rx_fifo := [];
                   tx_room := left_room bs (room + f) |} |},
     transfer_output txv t (room + f) n (length rxv) bs).
Proof.
  cbn [handle]. rewrite hw_exchange_then, ISR_SPI_unfold.
  apply ISR_SPI_loop_transfer.
Qed.

Lemma spi_irq_no_byte f mode addr buf t n room :
  handle' (spi_irq [] f)
    {| mode_ := mode; current_address_ := addr; buffer_ := buf;
       tx_bytes_ := t; rx_bytes_ := n;
       spi_ := {| rx_fifo := []; tx_room := room |} |}
  = (tt,
     {| mode_ := mode; current_address_ := addr; buffer_ := buf;
        tx_bytes_ := t; rx_bytes_ := n;
        spi_ := {| rx_fifo := []; tx_room := (room + f)%nat |} |},
     []).
Proof. cbn [handle]. rewrite hw_exchange_then. reflexivity. Qed.

Lemma spi_irq_waiting a ds f addr buf t n room :
  handle' (spi_irq (a :: ds) f)
    {| mode_ := kWaitingAddress; current_address_ := addr; buffer_ := buf;
       tx_bytes_ := t; rx_bytes_ := n;
       spi_ := {| rx_fifo := []; tx_room := room |} |}
  = (tt,
     {| mode_ := kTransfer; current_address_ := u8 a;
        buffer_ := {| tx := tx (start_handler_ (u8 a));
                      rx := rx_fill n ds (rx (start_handler_ (u8 a))) |};
        tx_bytes_ := tx_advance t (room + f);
        rx_bytes_ := rx_advance n (length ds);
        spi_ := {| rx_fifo := []; tx_room := 0 |} |},
     DR_read a :: start_call (u8 a)
       :: map DR_write (fills (tx (start_handler_ (u8 a))) t (room + f))
       ++ transfer_output (tx (start_handler_ (u8 a)))
            (tx_advance t (room + f)) 0 n
            (length (rx (start_handler_ (u8 a)))) ds).
Proof.
  cbn [handle]. rewrite hw_exchange_then, ISR_SPI_unfold.
  cbn [spi_ rx_fifo length].
  erewrite ISR_SPI_loop_step by reflexivity.
  erewrite bind_eq by apply ISR_SPI_body_waiting.
  destruct (start_handler_ (u8 a)) as [txv rxv]. cbn [tx rx].
  rewrite ISR_SPI_loop_transfer.
  replace (tx_advance (tx_advance t (room + f)) (used_room ds 0))
    with (tx_advance t (room + f)) by (destruct ds; reflexivity).
  replace (left_room ds 0) with O by (destruct ds; reflexivity).
  reflexivity.
Qed.

Lemma nss_fall_spec mode addr buf t n room :
  ISR_HandleNssFall dr_idle
    {| mode_ := mode; current_address_ := addr; buffer_ := buf;
       tx_bytes_ := t; rx_bytes_ := n;
       spi_ := {| rx_fifo := []; tx_room := room |} |}
  = (tt,
     {| mode_ := kWaitingAddress; current_address_ := addr; buffer_ := buf;
        tx_bytes_ := t; rx_bytes_ := n;
        spi_ := {| rx_fifo := []; tx_room := room |} |},
     [led_write false; DR_read dr_idle; wild_store (u8 dr_idle) 0]).
Proof. reflexivity. Qed.

Lemma nss_rise_spec m :
  ISR_HandleNssRise reset_room m
  = (tt,
     {| mode_ := kInactive; current_address_ := current_address_ m;
        buffer_ := buffer_ m; tx_bytes_ := 0; rx_bytes_ := 0;
        spi_ := {| rx_fifo := []; tx_room := reset_room |} |},
     (if decide (mode_ m = kTransfer)
      then [end_call (current_address_ m) (rx_bytes_ m)] else [])
       ++ [spi_reinit]).
Proof.
  unfold ISR_HandleNssRise, bind, get. cbn.
  destruct (decide (mode_ m = kTransfer)); reflexivity.
Qed.

(** *** Lists of events *)

Lemma after_cons e evs m :
  after (run' (e :: evs)) m = after (run' evs) (after (handle' e) m).
Proof.
  unfold after. cbn [run]. unfold bind.
  destruct (handle' e m) as [[[] m1] out1]. cbn.
  destruct (run' evs m1) as [[[] m2] out2]. reflexivity.
Qed.

Lemma output_cons e evs m :
  output (run' (e :: evs)) m
  = output (handle' e) m ++ output (run' evs) (after (handle' e) m).
Proof.
  unfold after, output. cbn [run]. unfold bind.
  destruct (handle' e m) as [[[] m1] out1]. cbn.
  destruct (run' evs m1) as [[[] m2] out2]. reflexivity.
Qed.

Lemma after_app evs1 evs2 m :
  after (run' (evs1 ++ evs2)) m = after (run' evs2) (after (run' evs1) m).
Proof.
  revert m. induction evs1 as [|e evs1 IH]; intros m; [reflexivity|].
  cbn [app]. rewrite !after_cons. apply IH.
Qed.

Lemma output_app evs1 evs2 m :
  output (run' (evs1 ++ evs2)) m
  = output (run' evs1) m ++ output (run' evs2) (after (run' evs1) m).
Proof.
  revert m. induction evs1 as [|e evs1 IH]; intros m; [reflexivity|].
  cbn [app]. rewrite !output_cons, !after_cons, IH, app_assoc. reflexivity.
Qed.

(** *** Events that bring no byte *)

Lemma no_byte_phase body :
  Forall quiet body -> clocked body = [] ->
  forall mode addr buf t n room,
  let m := {| mode_ := mode; current_address_ := addr; buffer_ := buf;
              tx_bytes_ := t; rx_bytes_ := n;
              spi_ := {| rx_fifo := []; tx_room := room |} |} in
  after (run' body) m
  = {| mode_ := mode; current_address_ := addr; buffer_ := buf;
       tx_bytes_ := t; rx_bytes_ := n;
       spi_ := {| rx_fifo := []; tx_room := unserved_room room body |} |}
  /\ served_room room body = O
  /\ reads (output (run' body) m) = []
  /\ writes (output (run' body) m) = []
  /\ stores (output (run' body) m) = []
  /\ starts (output (run' body) m) = []
  /\ ends (output (run' body) m) = [].
Proof.
  cbn zeta. induction 1 as [|e body He Hbody IH]; intros Hc mode addr buf t n room.
  { repeat split. }
  destruct e as [| |bs f|]; try contradiction; cbn [clocked] in Hc.
  - apply app_nil in Hc as [-> Hc].
    rewrite after_cons, output_cons.
    by_spec (spi_irq_no_byte f mode addr buf t n room).
    cbn [app served_room unserved_room used_room left_room]. apply IH, Hc.
  - rewrite after_cons, output_cons.
    change (after (handle' poll_ms) ?m) with m.
    change (output (handle' poll_ms) ?m) with [led_write true].
    rewrite reads_app, writes_app, stores_app, starts_app, ends_app.
    cbn [served_room unserved_room]. apply IH, Hc.
Qed.

(** *** The data phase *)

Lemma transfer_phase body :
  Forall quiet body ->
  forall addr txv rxv t n room,
  let m := {| mode_ := kTransfer; current_address_ := addr;
              buffer_ := {| tx := txv; rx := rxv |};
              tx_bytes_ := t; rx_bytes_ := n;
              spi_ := {| rx_fifo := []; tx_room := room |} |} in
  after (run' body) m
  = {| mode_ := kTransfer; current_address_ := addr;
       buffer_ := {| tx := txv; rx := rx_fill n (clocked body) rxv |};
       tx_bytes_ := tx_advance t (served_room room body);
       rx_bytes_ := rx_advance n (length (clocked body));
       spi_ := {| rx_fifo := []; tx_room := unserved_room room body |} |}
  /\ reads (output (run' body) m) = clocked body
  /\ writes (output (run' body) m) = fills txv t (served_room room body)
  /\ stores (output (run' body) m) = rx_stores n (length rxv) (clocked body)
  /\ starts (output (run' body) m) = []
  /\ ends (output (run' body) m) = [].
Proof.
  cbn zeta. induction 1 as [|e body He Hbody IH]; intros addr txv rxv t n room.
  { repeat split. }
  destruct e as [| |bs f|]; try contradiction.
  - rewrite after_cons, output_cons.
    by_spec (spi_irq_transfer bs f addr txv rxv t n room).
    destruct (projections_transfer_output txv t (room + f) n (length rxv) bs)
      as (P1 & P2 & P3 & P4 & P5).
    destruct (IH addr txv (rx_fill n bs rxv)
                (tx_advance t (used_room bs (room + f)))
                (rx_advance n (length bs)) (left_room bs (room + f)))
      as (I0 & I1 & I2 & I3 & I4 & I5).
    rewrite reads_app, writes_app, stores_app, starts_app, ends_app.
    rewrite I0, I1, I2, I3, I4, I5, P1, P2, P3, P4, P5.
    cbn [clocked served_room unserved_room].
    rewrite rx_fill_app, length_app, rx_advance_add, tx_advance_add,
      fills_add, rx_stores_app, rx_fill_length.
    repeat split.
  - rewrite after_cons, output_cons.
    change (after (handle' poll_ms) ?m) with m.
    change (output (handle' poll_ms) ?m) with [led_write true].
    rewrite reads_app, writes_app, stores_app, starts_app, ends_app.
    cbn [clocked served_room unserved_room]. apply IH.
Qed.

(** *** A select cycle in which a byte is clocked *)

Lemma cycle_shape body a data :
  Forall quiet body -> clocked body = a :: data ->
  forall mode addr buf t n room,
  let m := {| mode_ := mode; current_address_ := addr; buffer_ := buf;
              tx_bytes_ := t; rx_bytes_ := n;
              spi_ := {| rx_fifo := []; tx_room := room |} |} in
  let B := start_handler_ (u8 a) in
  after (run' (nss_fall :: body)) m
  = {| mode_ := kTransfer; current_address_ := u8 a;
       buffer_ := {| tx := tx B; rx := rx_fill n data (rx B) |};
       tx_bytes_ := tx_advance t (served_room room body);
       rx_bytes_ := rx_advance n (length data);
       spi_ := {| rx_fifo := []; tx_room := unserved_room room body |} |}
  /\ exists pre post,
       output (run' (nss_fall :: body)) m
       = pre ++ [DR_read a; start_call (u8 a)] ++ post
       /\ (reads pre = [dr_idle] /\ writes pre = [] /\ stores pre = []
           /\ starts pre = [] /\ ends pre = [])
       /\ (reads post = data
           /\ writes post = fills (tx B) t (served_room room body)
           /\ stores post = rx_stores n (length (rx B)) data
           /\ starts post = [] /\ ends post = []).
Proof.
  intros Hq Hc mode addr buf t n room. cbn zeta.
  destruct (first_byte body a data Hq Hc)
    as (pre & ds & f & post & -> & Hpre & Hcp & Hpost & ->).
  rewrite after_cons, output_cons.
  rewrite (after_eq (handle' nss_fall) _ _ _ _
             (nss_fall_spec mode addr buf t n room)).
  rewrite (output_eq (handle' nss_fall) _ _ _ _
             (nss_fall_spec mode addr buf t n room)).
  rewrite after_app, output_app.
  destruct (no_byte_phase pre Hpre Hcp kWaitingAddress addr buf t n room)
    as (N0 & NS & N1 & N2 & N3 & N4 & N5).
  rewrite N0, after_cons, output_cons.
  set (room' := unserved_room room pre) in *.
  by_spec (spi_irq_waiting a ds f addr buf t n room').
  set (B := start_handler_ (u8 a)).
  destruct (transfer_phase post Hpost (u8 a) (tx B) (rx_fill n ds (rx B))
              (tx_advance t (room' + f)) (rx_advance n (length ds)) O)
    as (T0 & T1 & T2 & T3 & T4 & T5).
  destruct (projections_transfer_output (tx B) (tx_advance t (room' + f)) O n
              (length (rx B)) ds) as (P1 & P2 & P3 & P4 & P5).
  destruct (projections_DR_write (fills (tx B) t (room' + f)))
    as (W1 & W2 & W3 & W4 & W5).
  replace (used_room ds 0) with O in P2 by (destruct ds; reflexivity).
  rewrite rx_fill_length in T3.
  rewrite served_room_app, unserved_room_app, NS. fold room'.
  cbn [served_room unserved_room used_room left_room plus].
  split.
  { rewrite T0, <- rx_fill_app, length_app, rx_advance_add.
    rewrite (tx_advance_add t (room' + f)). reflexivity. }
  match goal with
  | |- exists pre post, ?L ++ (?P ++ (_ :: _ :: ?W ++ ?T) ++ ?Q) = _ /\ _ =>
      exists (L ++ P), (W ++ T ++ Q)
  end.
  split.
  { rewrite <- !app_assoc. cbn [app]. rewrite <- !app_assoc. reflexivity. }
  rewrite !reads_app, !writes_app, !stores_app, !starts_app, !ends_app.
  rewrite N1, N2, N3, N4, N5, T1, T2, T3, T4, T5, P1, P2, P3, P4, P5,
    W1, W2, W3, W4, W5.
  rewrite (fills_add _ t (room' + f)), rx_stores_app.
  repeat split.
Qed.

(** *** What holds in every reachable state *)

Lemma at_rest_handle e m : at_rest m -> at_rest (after (handle' e) m).
Proof.
  destruct m as [mode addr buf t n [fifo room]].
  intros [Hf Hi]; cbn in Hf, Hi; subst fifo.
  destruct e as [| |bs f|].
  - cbn [handle]. rewrite (after_eq _ _ _ _ _ (nss_fall_spec _ _ _ _ _ _)).
    split; [reflexivity|discriminate].
  - cbn [handle]. rewrite (after_eq _ _ _ _ _ (nss_rise_spec _)).
    split; [reflexivity|done].
  - destruct mode.
    + rewrite (after_eq _ _ _ _ _ (spi_irq_inactive _ _ _ _ _ _ _)).
      split; [reflexivity|exact Hi].
    + destruct bs as [|a ds].
      * rewrite (after_eq _ _ _ _ _ (spi_irq_no_byte _ _ _ _ _ _ _)).
        split; [reflexivity|discriminate].
      * rewrite (after_eq _ _ _ _ _ (spi_irq_waiting _ _ _ _ _ _ _ _)).
        split; [reflexivity|discriminate].
    + destruct buf as [txv rxv].
      rewrite (after_eq _ _ _ _ _ (spi_irq_transfer _ _ _ _ _ _ _ _)).
      split; [reflexivity|discriminate].
  - split; [reflexivity|exact Hi].
Qed.

Lemma at_rest_run evs m : at_rest m -> at_rest (after (run' evs) m).
Proof.
  revert m. induction evs as [|e evs IH]; intros m Hm; [exact Hm|].
  rewrite after_cons. apply IH, at_rest_handle, Hm.
Qed.

Lemma reachable_at_rest m :
  reachable start_handler_ dr_idle reset_room m -> at_rest m.
Proof.
  intros [evs <-]. apply at_rest_run. split; [reflexivity|done].
Qed.

(** A reachable machine that is [kInactive] has both counters at zero
    and nothing in the receive FIFO. *)
Lemma reachable_inactive m :
  reachable start_handler_ dr_idle reset_room m -> mode_ m = kInactive ->
  m = {| mode_ := kInactive; current_address_ := current_address_ m;
         buffer_ := buffer_ m; tx_bytes_ := 0; rx_bytes_ := 0;
         spi_ := {| rx_fifo := []; tx_room := tx_room (spi_ m) |} |}.
Proof.
  intros Hr Hm. destruct (reachable_at_rest m Hr) as [Hf Hi].
  destruct (Hi Hm) as [Ht Hn].
  destruct m as [mode addr buf t n [fifo room]]; cbn in *. congruence.
Qed.

(** *** A whole transaction, from a reachable inactive machine *)

Lemma transaction_shape m body a data :
  reachable start_handler_ dr_idle reset_room m -> mode_ m = kInactive ->
  Forall quiet body -> clocked body = a :: data ->
  let B := start_handler_ (u8 a) in
  let K := served_room (tx_room (spi_ m)) body in
  after (run' (nss_fall :: body)) m
  = {| mode_ := kTransfer; current_address_ := u8 a;
       buffer_ := {| tx := tx B; rx := rx_fill 0 data (rx B) |};
       tx_bytes_ := tx_advance 0 K;
       rx_bytes_ := rx_advance 0 (length data);
       spi_ := {| rx_fifo := [];
                  tx_room := unserved_room (tx_room (spi_ m)) body |} |}
  /\ after (run' (transaction body)) m
     = {| mode_ := kInactive; current_address_ := u8 a;
          buffer_ := {| tx := tx B; rx := rx_fill 0 data (rx B) |};
          tx_bytes_ := 0; rx_bytes_ := 0;
          spi_ := {| rx_fifo := []; tx_room := reset_room |} |}
  /\ exists pre post,
       output (run' (transaction body)) m
       = pre ++ [DR_read a; start_call (u8 a)] ++ post
           ++ [end_call (u8 a) (rx_advance 0 (length data)); spi_reinit]
       /\ (reads pre = [dr_idle] /\ writes pre = [] /\ stores pre = []
           /\ starts pre = [] /\ ends pre = [])
       /\ (reads post = data
           /\ writes post = fills (tx B) 0 K
           /\ stores post = rx_stores 0 (length (rx B)) data
           /\ starts post = [] /\ ends post = []).
Proof.
  intros Hr Hm Hq Hc. cbn zeta.
  rewrite (reachable_inactive m Hr Hm).
  destruct (cycle_shape body a data Hq Hc kInactive (current_address_ m)
              (buffer_ m) 0 0 (tx_room (spi_ m)))
    as (S0 & pre & post & Hout & Hpre & Hpost).
  cbn [spi_ tx_room]. split; [exact S0|].
  change (transaction body) with ((nss_fall :: body) ++ [nss_rise]).
  rewrite after_app, output_app, S0.
  rewrite (after_cons nss_rise []), (output_cons nss_rise []).
  rewrite (after_eq (handle' nss_rise) _ _ _ _ (nss_rise_spec _)).
  rewrite (output_eq (handle' nss_rise) _ _ _ _ (nss_rise_spec _)).
  split; [reflexivity|].
  exists pre, post. split; [|split; assumption].
  rewrite Hout. cbn. rewrite <- !app_assoc. reflexivity.
Qed.

(** *** No end callback but at deassertion *)

Lemma ends_handle e m :
  at_rest m -> e <> nss_rise -> ends (output (handle' e) m) = [].
Proof.
  destruct m as [mode addr buf t n [fifo room]].
  intros [Hf Hi] He; cbn in Hf; subst fifo.
  destruct e as [| |bs f|]; [reflexivity|done| |reflexivity].
  destruct mode.
  - rewrite (output_eq _ _ _ _ _ (spi_irq_inactive _ _ _ _ _ _ _)).
    apply projections_DR_read.
  - destruct bs as [|a ds].
    + rewrite (output_eq _ _ _ _ _ (spi_irq_no_byte _ _ _ _ _ _ _)).
      reflexivity.
    + rewrite (output_eq _ _ _ _ _ (spi_irq_waiting _ _ _ _ _ _ _ _)).
      change (DR_read a :: start_call (u8 a) :: ?l)
        with ([DR_read a; start_call (u8 a)] ++ l).
      rewrite !ends_app.
      destruct (projections_DR_write
                  (fills (tx (start_handler_ (u8 a))) t (room + f)))
        as (_ & _ & _ & _ & ->).
      destruct (projections_transfer_output (tx (start_handler_ (u8 a)))
                  (tx_advance t (room + f)) 0 n
                  (length (rx (start_handler_ (u8 a)))) ds)
        as (_ & _ & _ & _ & ->).
      reflexivity.
  - destruct buf as [txv rxv].
    rewrite (output_eq _ _ _ _ _ (spi_irq_transfer _ _ _ _ _ _ _ _)).
    apply projections_transfer_output.
Qed.

Lemma ends_run evs m :
  at_rest m -> Forall (fun e => e <> nss_rise) evs ->
  ends (output (run' evs) m) = [].
Proof.
  intros Hm Hq. revert m Hm.
  induction Hq as [|e evs He Hevs IH]; intros m Hm; [reflexivity|].
  rewrite output_cons, ends_app, ends_handle, IH; auto using at_rest_handle.
Qed.

Lemma quiet_not_rise body :
  Forall quiet body -> Forall (fun e => e <> nss_rise) body.
Proof.
  intros H. eapply Forall_impl; [exact H|]. intros [] ?; done.
Qed.

(** *** The members that a new transaction can see *)

Lemma same_protocol_handle e s1 s2 :
  same_protocol s1 s2 ->
  output (handle' e) s1 = output (handle' e) s2
  /\ same_protocol (after (handle' e) s1) (after (handle' e) s2).
Proof.
  destruct s1 as [mode addr1 buf1 t n [fifo room]].
  destruct s2 as [mode2 addr2 buf2 t2 n2 p2].
  intros (Hf & Hm & Ht & Hn & Hp & Hb); cbn in *; subst.
  destruct e as [| |bs f|].
  - split; [reflexivity|]. repeat split; cbn; discriminate.
  - cbn [handle].
    by_spec (nss_rise_spec _). cbn.
    split; [|repeat split; cbn; discriminate].
    destruct (decide (mode2 = kTransfer)) as [E|]; [|reflexivity].
    destruct (Hb E) as [-> _]. reflexivity.
  - destruct mode2.
    + by_spec (spi_irq_inactive _ _ _ _ _ _ _).
      split; [reflexivity|]. repeat split; cbn; discriminate.
    + destruct bs as [|a ds].
      * by_spec (spi_irq_no_byte _ _ _ _ _ _ _).
        split; [reflexivity|]. repeat split; cbn; discriminate.
      * by_spec (spi_irq_waiting _ _ _ _ _ _ _ _).
        split; [reflexivity|]. repeat split.
    + destruct (Hb eq_refl) as [-> ->]. split; [reflexivity|].
      destruct buf2 as [txv rxv].
      rewrite !(after_eq _ _ _ _ _ (spi_irq_transfer _ _ _ _ _ _ _ _)).
      repeat split.
  - split; [reflexivity|]. repeat (split; [reflexivity|]). exact Hb.
Qed.

Lemma same_protocol_run evs s1 s2 :
  same_protocol s1 s2 ->
  output (run' evs) s1 = output (run' evs) s2
  /\ same_protocol (after (run' evs) s1) (after (run' evs) s2).
Proof.
  revert s1 s2. induction evs as [|e evs IH]; intros s1 s2 H.
  { split; [reflexivity|exact H]. }
  destruct (same_protocol_handle e s1 s2 H) as [Ho Hs].
  destruct (IH _ _ Hs) as [Ho' Hs'].
  rewrite !output_cons, !after_cons, Ho, Ho'. split; [reflexivity|exact Hs'].
Qed.

End Handlers.

(** ** The properties of the protocol engine *)

Section Claims.

Variable start_handler_ : Z -> Buffer.
Variable dr_idle : byte.
Variable reset_room : nat.

Local Abbreviation run' := (run start_handler_ dr_idle reset_room).
Local Abbreviation reachable' := (reachable start_handler_ dr_idle reset_room).
Local Abbreviation ISR_SPI' := (ISR_SPI start_handler_ dr_idle).
Local Abbreviation Fall := (ISR_HandleNssFall dr_idle).
Local Abbreviation Rise := (ISR_HandleNssRise reset_room).

(** C1: in a transaction that reaches the data phase, the end callback
    gets the exact number of data bytes the master clocked, whatever
    the size of the receive view: the [j]-th data byte is stored at
    index [j] while [j] is below the size of the view, the bytes
    beyond it are counted and not stored.  (The count is an [ssize_t]:
    the data phase is shorter than 2^31 bytes.) *)
Theorem C1_receive_count_is_exact m body a data :
  reachable' m -> mode_ m = kInactive ->
  Forall quiet body -> clocked body = a :: data ->
  Z.of_nat (length data) < 2 ^ 31 ->
  let B := start_handler_ (u8 a) in
  let out := output (run' (transaction body)) m in
  ends out = [(u8 a, Z.of_nat (length data))]
  /\ stores out = stored_at 0 (take (length (rx B)) data)
  /\ rx (buffer_ (after (run' (transaction body)) m))
     = received_into (rx B) data.
Proof.
  intros Hr Hm Hq Hc Hb. cbn zeta.
  destruct (transaction_shape start_handler_ dr_idle reset_room
              m body a data Hr Hm Hq Hc)
    as (_ & S1 & pre & post & -> & Hpre & Hpost).
  destruct Hpre as (_ & _ & Ps & _ & Pe).
  destruct Hpost as (_ & _ & Qs & _ & Qe).
  rewrite S1, !ends_app, !stores_app, Ps, Pe, Qs, Qe. cbn.
  rewrite rx_advance_small, rx_fill_received by lia.
  rewrite (rx_stores_small 0) by (cbn [plus]; lia).
  rewrite Nat.sub_0_r, app_nil_r. repeat split.
Qed.

(** C2: in every transaction the bytes written to the data register
    during the data phase are the bytes of the transmit view followed
    by zeros: the [i]-th fill writes [tx[i]] while [i] is below the
    size of the view and 0 from there on, and [tx_bytes_] counts every
    fill.  (The count is a [size_t]: fewer than 2^32 fills.) *)
Theorem C2_transmit_stream_is_tx_then_zeros m body a data :
  reachable' m -> mode_ m = kInactive ->
  Forall quiet body -> clocked body = a :: data ->
  let K := served_room (tx_room (spi_ m)) body in
  Z.of_nat K < 2 ^ 32 ->
  writes (output (run' (transaction body)) m)
  = zero_padded (tx (start_handler_ (u8 a))) K
  /\ tx_bytes_ (after (run' (nss_fall :: body)) m) = Z.of_nat K.
Proof.
  intros Hr Hm Hq Hc K Hb.
  destruct (transaction_shape start_handler_ dr_idle reset_room
              m body a data Hr Hm Hq Hc)
    as (S0 & _ & pre & post & -> & Hpre & Hpost).
  destruct Hpre as (_ & Pw & _). destruct Hpost as (_ & Qw & _).
  rewrite S0, !writes_app, Pw, Qw. cbn. fold K.
  rewrite fills_zero_padded, tx_advance_small, app_nil_r by lia.
  split; [reflexivity|lia].
Qed.

(** C3: in every transaction in which the master clocks an address
    byte, the start callback is invoked exactly once, with that byte,
    right after the byte is read and before any data byte is read,
    stored or answered; the buffers it returns are the ones the data
    phase uses, and the mode is [kTransfer] from there to the
    deassertion. *)
Theorem C3_start_callback_once_before_data m body a data :
  reachable' m -> mode_ m = kInactive ->
  Forall quiet body -> clocked body = a :: data ->
  let B := start_handler_ (u8 a) in
  let before_rise := after (run' (nss_fall :: body)) m in
  starts (output (run' (transaction body)) m) = [u8 a]
  /\ (exists pre post,
        output (run' (transaction body)) m
        = pre ++ [DR_read a; start_call (u8 a)] ++ post
        /\ reads pre = [dr_idle] /\ writes pre = [] /\ stores pre = []
        /\ reads post = data
        /\ writes post = fills (tx B) 0 (served_room (tx_room (spi_ m)) body)
        /\ stores post = rx_stores 0 (length (rx B)) data)
  /\ mode_ before_rise = kTransfer
  /\ current_address_ before_rise = u8 a
  /\ buffer_ before_rise = {| tx := tx B; rx := rx_fill 0 data (rx B) |}.
Proof.
  intros Hr Hm Hq Hc. cbn zeta.
  destruct (transaction_shape start_handler_ dr_idle reset_room
              m body a data Hr Hm Hq Hc)
    as (S0 & _ & pre & post & Hout & Hpre & Hpost).
  destruct Hpre as (Pr & Pw & Ps & Pst & _).
  destruct Hpost as (Qr & Qw & Qs & Qst & _).
  rewrite S0, Hout. split; [|split; [|repeat split]].
  - rewrite !starts_app, Pst, Qst. reflexivity.
  - exists pre, (post ++ [end_call (u8 a) (rx_advance 0 (length data));
                          spi_reinit]).
    rewrite reads_app, writes_app, stores_app, Qr, Qw, Qs, !app_nil_r.
    repeat split; assumption.
Qed.

(** C4: the end callback fires at most once per select cycle.  A
    deassertion invokes it, with [(current_address_, rx_bytes_)], when
    and only when the mode is [kTransfer], and leaves the mode
    [kInactive] in every case; nothing else in the cycle invokes it.
    The cycle is in [kTransfer] at its deassertion exactly when a byte
    was clocked in it. *)
Theorem C4_end_callback_at_most_once m body :
  reachable' m -> Forall quiet body ->
  let before_rise := after (run' (nss_fall :: body)) m in
  ends (output (run' (transaction body)) m)
  = (if decide (mode_ before_rise = kTransfer)
     then [(current_address_ before_rise, rx_bytes_ before_rise)]
     else [])
  /\ (mode_ before_rise = kTransfer <-> clocked body <> [])
  /\ (mode_ before_rise <> kTransfer -> mode_ before_rise = kWaitingAddress)
  /\ mode_ (after (run' (transaction body)) m) = kInactive
  /\ (forall s,
        ends (output Rise s)
        = (if decide (mode_ s = kTransfer)
           then [(current_address_ s, rx_bytes_ s)] else [])
        /\ mode_ (after Rise s) = kInactive).
Proof.
  intros Hr Hq. cbn zeta.
  pose proof (reachable_at_rest _ _ _ m Hr) as Hrest.
  assert (Hrise : forall s,
    ends (output Rise s)
    = (if decide (mode_ s = kTransfer)
       then [(current_address_ s, rx_bytes_ s)] else [])
    /\ mode_ (after Rise s) = kInactive).
  { intros s.
    by_spec (nss_rise_spec reset_room s).
    destruct (decide (mode_ s = kTransfer)); split; reflexivity. }
  change (transaction body) with ((nss_fall :: body) ++ [nss_rise]).
  rewrite after_app, output_app, ends_app.
  assert (Hnr : Forall (fun e => e <> nss_rise) (nss_fall :: body))
    by (constructor; [discriminate|apply quiet_not_rise, Hq]).
  rewrite (ends_run start_handler_ dr_idle reset_room
             (nss_fall :: body) m Hrest Hnr).
  rewrite (after_cons _ _ _ nss_rise []), (output_cons _ _ _ nss_rise []).
  change (output (run' []) ?x) with (@nil effect).
  change (after (run' []) ?x) with x.
  rewrite !app_nil_r. cbn [app].
  set (s := after (run' (nss_fall :: body)) m).
  destruct (Hrise s) as [He Hi].
  split; [exact He|]. split; [|split; [|split; [exact Hi|exact Hrise]]].
  - subst s. destruct (clocked body) as [|a data] eqn:Hc.
    + destruct m as [mode addr buf t n [fifo room]].
      destruct Hrest as [Hf _]; cbn in Hf; subst fifo.
      rewrite after_cons.
      rewrite (after_eq (handle _ _ _ nss_fall) _ _ _ _
                 (nss_fall_spec dr_idle _ _ _ _ _ _)).
      destruct (no_byte_phase start_handler_ dr_idle reset_room body Hq Hc
                  kWaitingAddress addr buf t n room) as (-> & _).
      cbn. split; [discriminate|done].
    + destruct m as [mode addr buf t n [fifo room]].
      destruct Hrest as [Hf _]; cbn in Hf; subst fifo.
      destruct (cycle_shape start_handler_ dr_idle reset_room body a data
                  Hq Hc mode addr buf t n room) as (-> & _).
      cbn. split; [discriminate|done].
  - subst s. destruct (clocked body) as [|a data] eqn:Hc.
    + destruct m as [mode addr buf t n [fifo room]].
      destruct Hrest as [Hf _]; cbn in Hf; subst fifo.
      rewrite after_cons.
      rewrite (after_eq (handle _ _ _ nss_fall) _ _ _ _
                 (nss_fall_spec dr_idle _ _ _ _ _ _)).
      destruct (no_byte_phase start_handler_ dr_idle reset_room body Hq Hc
                  kWaitingAddress addr buf t n room) as (-> & _).
      reflexivity.
    + destruct m as [mode addr buf t n [fifo room]].
      destruct Hrest as [Hf _]; cbn in Hf; subst fifo.
      destruct (cycle_shape start_handler_ dr_idle reset_room body a data
                  Hq Hc mode addr buf t n room) as (-> & _).
      cbn. done.
Qed.

(** C5, as the code has it: a select assertion puts the engine in
    [kWaitingAddress] and leaves both counters as they are; it is the
    deassertion that sets them to zero.  So the counters are zero
    whenever a reachable engine is [kInactive], and with that at every
    assertion that finds it so. *)
Theorem C5_counters_reset_at_deassertion m :
  reachable' m ->
  (mode_ (after Fall m) = kWaitingAddress
   /\ tx_bytes_ (after Fall m) = tx_bytes_ m
   /\ rx_bytes_ (after Fall m) = rx_bytes_ m)
  /\ (tx_bytes_ (after Rise m) = 0 /\ rx_bytes_ (after Rise m) = 0)
  /\ (mode_ m = kInactive ->
      tx_bytes_ (after Fall m) = 0 /\ rx_bytes_ (after Fall m) = 0).
Proof.
  intros Hr. destruct (reachable_at_rest _ _ _ m Hr) as [Hf Hi].
  destruct m as [mode addr buf t n [fifo room]]; cbn in Hf, Hi; subst fifo.
  rewrite (after_eq _ _ _ _ _ (nss_fall_spec dr_idle _ _ _ _ _ _)).
  rewrite (after_eq _ _ _ _ _ (nss_rise_spec reset_room _)).
  cbn. repeat split; intros; apply Hi; assumption.
Qed.

(** C6: while the mode is [kInactive], [ISR_SPI] reads every byte that
    waits in the receive FIFO and drops it; it invokes no callback,
    writes nothing, and leaves the mode, the counters, the address and
    the buffers as they are. *)
Theorem C6_inactive_bytes_are_discarded m :
  mode_ m = kInactive ->
  after ISR_SPI' m
  = {| mode_ := kInactive; current_address_ := current_address_ m;
       buffer_ := buffer_ m; tx_bytes_ := tx_bytes_ m;
       rx_bytes_ := rx_bytes_ m;
       spi_ := {| rx_fifo := []; tx_room := tx_room (spi_ m) |} |}
  /\ output ISR_SPI' m = map DR_read (rx_fifo (spi_ m)).
Proof.
  destruct m as [mode addr buf t n [fifo room]]; cbn; intros ->.
  unfold after, output. rewrite ISR_SPI_unfold. cbn [spi_ rx_fifo].
  rewrite ISR_SPI_loop_inactive. split; reflexivity.
Qed.

(** C7, as the code has it: a select assertion, whatever the mode it
    finds, invokes no callback, leaves the counters, the address and
    the buffers as they are, and sets the mode to [kWaitingAddress].
    An engine that was waiting for the address is left as it was; a
    transfer in progress is dropped: a deassertion that follows with
    no byte in between invokes no end callback and leaves the engine
    [kInactive]. *)
Theorem C7_reassertion_returns_to_waiting m :
  reachable' m ->
  let m' := after Fall m in
  m' = {| mode_ := kWaitingAddress; current_address_ := current_address_ m;
          buffer_ := buffer_ m; tx_bytes_ := tx_bytes_ m;
          rx_bytes_ := rx_bytes_ m; spi_ := spi_ m |}
  /\ (mode_ m = kWaitingAddress -> m' = m)
  /\ starts (output Fall m) = [] /\ ends (output Fall m) = []
  /\ ends (output (run' [nss_fall; nss_rise]) m) = []
  /\ mode_ (after (run' [nss_fall; nss_rise]) m) = kInactive.
Proof.
  intros Hr. destruct (reachable_at_rest _ _ _ m Hr) as [Hf _].
  destruct m as [mode addr buf t n [fifo room]]; cbn in Hf; subst fifo.
  cbn zeta. rewrite (after_eq _ _ _ _ _ (nss_fall_spec dr_idle _ _ _ _ _ _)).
  repeat split. cbn. intros ->. reflexivity.
Qed.

(** C8: consecutive transactions are independent.  A deassertion
    leaves the engine [kInactive] with both counters at zero and the
    peripheral reset; the address and the buffers of the transaction
    it ends stay in the members, and nothing reads them before the
    next address byte overwrites them.  So whatever the engine was
    before the deassertion, every run of events after it makes the
    same register accesses, stores and callback invocations. *)
Theorem C8_transactions_are_independent m1 m2 evs :
  let s1 := after Rise m1 in
  let s2 := after Rise m2 in
  (mode_ s1 = kInactive /\ tx_bytes_ s1 = 0 /\ rx_bytes_ s1 = 0
   /\ spi_ s1 = {| rx_fifo := []; tx_room := reset_room |})
  /\ output (run' evs) s1 = output (run' evs) s2
  /\ same_protocol (after (run' evs) s1) (after (run' evs) s2).
Proof.
  cbn zeta.
  rewrite !(after_eq _ _ _ _ _ (nss_rise_spec reset_room _)).
  split; [repeat split|].
  apply same_protocol_run. repeat split; discriminate.
Qed.

(** C9: when the master clocks the address byte and nothing more, the
    engine is in [kTransfer] at the deassertion, the start callback
    has been invoked once with the address, and the end callback is
    invoked once with the address and a count of zero. *)
Theorem C9_address_only_transaction m body a :
  reachable' m -> mode_ m = kInactive ->
  Forall quiet body -> clocked body = [a] ->
  mode_ (after (run' (nss_fall :: body)) m) = kTransfer
  /\ starts (output (run' (transaction body)) m) = [u8 a]
  /\ ends (output (run' (transaction body)) m) = [(u8 a, 0)].
Proof.
  intros Hr Hm Hq Hc.
  destruct (transaction_shape start_handler_ dr_idle reset_room
              m body a [] Hr Hm Hq Hc)
    as (-> & _ & pre & post & -> & Hpre & Hpost).
  destruct Hpre as (_ & _ & _ & Pst & Pe).
  destruct Hpost as (_ & _ & _ & Qst & Qe).
  rewrite !starts_app, !ends_app, Pst, Pe, Qst, Qe. repeat split.
Qed.


End Claims.

(** ** The constructor *)

Section ConstructionClaims.

Variable PinName : Type.
Variable pinmap_peripheral : PinName -> PinMap -> Z.

Local Abbreviation resolve_spi' := (resolve_spi pinmap_peripheral).
Local Abbreviation construct_spi' := (construct_spi pinmap_peripheral).

(** C10: the merge of the four lookups is their common value when the
    four are equal and the value-initialised (null) one otherwise; the
    constructor goes on with a peripheral exactly when the four pins
    map to one and the same non-null peripheral, and its assertion
    fails, ending the process, in every other case. *)
Theorem C10_construction_resolves_common_peripheral (pins : Pins PinName) :
  let a := pinmap_peripheral (mosi pins) PinMap_SPI_MOSI in
  let b := pinmap_peripheral (miso pins) PinMap_SPI_MISO in
  let c := pinmap_peripheral (sclk pins) PinMap_SPI_SCLK in
  let d := pinmap_peripheral (ssel pins) PinMap_SPI_SSEL in
  resolve_spi' pins = (if decide (a = b /\ b = c /\ c = d) then a else nullptr)
  /\ (forall p, construct_spi' pins = Some p
                <-> a = p /\ b = p /\ c = p /\ d = p /\ p <> nullptr)
  /\ (construct_spi' pins = None
      <-> ~ (a = b /\ b = c /\ c = d) \/ a = nullptr).
Proof.
  intros a b c d.
  assert (Hr : resolve_spi' pins
               = if decide (a = b /\ b = c /\ c = d) then a else nullptr).
  { unfold resolve_spi, merge, value_init, uint32_value_init, nullptr.
    fold a b c d.
    repeat (case_decide; subst; try reflexivity; try tauto);
      try congruence; try lia. }
  split; [exact Hr|].
  unfold construct_spi, MJ_ASSERT. rewrite Hr. unfold nullptr in *.
  case_decide as Hall.
  - destruct Hall as (-> & -> & ->).
    destruct (Z.eqb_spec d 0) as [H0|H0]; cbn; split.
    + intros p. split; [discriminate|]. intros (<- & _ & _ & _ & Hp). done.
    + split; [tauto|reflexivity].
    + intros p. split.
      * intros [= <-]. repeat split; assumption.
      * intros (<- & _). reflexivity.
    + split; [discriminate|]. intros [H|H]; [tauto|done].
  - cbn. split.
    + intros p. split; [discriminate|].
      intros (<- & <- & <- & <- & _). tauto.
    + split; [tauto|reflexivity].
Qed.

End ConstructionClaims.


(** ** The scenario of the specification, run *)

Lemma demo_initial_reachable : reachable demo_start x00 1 (initial 1).
Proof. exists []. reflexivity. Qed.

Lemma demo_mid_reachable : reachable demo_start x00 1 demo_mid.
Proof.
  exists [nss_fall; spi_irq [x10; x01; x02] 2]. unfold demo_mid. reflexivity.
Qed.

Lemma demo_body_quiet : Forall quiet demo_body.
Proof. repeat constructor. Qed.


(** The three scenarios of the specification: four data bytes against
    room for five, six data bytes against room for five, and a select
    pulse with no byte at all. *)
Example scenario_four_bytes :
  run demo_start x00 1 (transaction demo_body) (initial 1)
  = (tt,
     {| mode_ := kInactive; current_address_ := 16;
        buffer_ := {| tx := [xaa; xbb; xcc];
                      rx := [x01; x02; x03; x04; x00] |};
        tx_bytes_ := 0; rx_bytes_ := 0;
        spi_ := {| rx_fifo := []; tx_room := 1 |} |},
     [led_write false; DR_read x00; wild_store 0 0;
      DR_read x10; start_call 16; DR_write xaa;
      DR_read x01; rx_store 0 x01; DR_write xbb;
      DR_read x02; rx_store 1 x02; DR_write xcc;
      DR_read x03; rx_store 2 x03; DR_write x00;
      DR_read x04; rx_store 3 x04; DR_write x00;
      end_call 16 4; spi_reinit]).
Proof. vm_compute. reflexivity. Qed.

Example scenario_six_bytes :
  let r := run demo_start x00 1
             (transaction [spi_irq [x10] 0; spi_irq [x01; x02; x03] 1;
                           spi_irq [x04; x05; x06] 3])
             (initial 1) in
  rx (buffer_ (snd (fst r))) = [x01; x02; x03; x04; x05]
  /\ ends (snd r) = [(16, 6)]
  /\ stores (snd r) = [(0, x01); (1, x02); (2, x03); (3, x04); (4, x05)].
Proof. vm_compute. repeat split. Qed.

Example scenario_no_address :
  output (run demo_start x00 1 (transaction [])) (initial 1)
  = [led_write false; DR_read x00; wild_store 0 0; spi_reinit].
Proof. vm_compute. reflexivity. Qed.

Lemma demo_address_only_quiet : Forall quiet [spi_irq [x10] 0].
Proof. repeat constructor. Qed.

Lemma C1_witness :
  let out := output (run demo_start x00 1 (transaction demo_body)) (initial 1) in
  ends out = [(16, 4)]
  /\ stores out = [(0, x01); (1, x02); (2, x03); (3, x04)]
  /\ rx (buffer_ (after (run demo_start x00 1 (transaction demo_body))
                    (initial 1)))
     = [x01; x02; x03; x04; x00].
Proof.
  exact (C1_receive_count_is_exact demo_start x00 1 (initial 1) demo_body
           x10 [x01; x02; x03; x04]
           demo_initial_reachable eq_refl demo_body_quiet eq_refl eq_refl).
Defined.

Lemma C2_witness :
  writes (output (run demo_start x00 1 (transaction demo_body)) (initial 1))
  = [xaa; xbb; xcc; x00; x00]
  /\ tx_bytes_ (after (run demo_start x00 1 (nss_fall :: demo_body)) (initial 1))
     = 5.
Proof.
  exact (C2_transmit_stream_is_tx_then_zeros demo_start x00 1 (initial 1)
           demo_body x10 [x01; x02; x03; x04]
           demo_initial_reachable eq_refl demo_body_quiet eq_refl eq_refl).
Defined.

Lemma C3_witness :
  starts (output (run demo_start x00 1 (transaction demo_body)) (initial 1))
  = [16]
  /\ mode_ (after (run demo_start x00 1 (nss_fall :: demo_body)) (initial 1))
     = kTransfer.
Proof.
  destruct (C3_start_callback_once_before_data demo_start x00 1 (initial 1)
              demo_body x10 [x01; x02; x03; x04]
              demo_initial_reachable eq_refl demo_body_quiet eq_refl)
    as (H1 & _ & H2 & _).
  split; [exact H1|exact H2].
Defined.

Lemma C4_witness :
  ends (output (run demo_start x00 1 (transaction demo_body)) (initial 1))
  = [(16, 4)]
  /\ ends (output (run demo_start x00 1 (transaction [])) (initial 1)) = [].
Proof.
  split.
  - exact (proj1 (C4_end_callback_at_most_once demo_start x00 1 (initial 1)
                    demo_body demo_initial_reachable demo_body_quiet)).
  - exact (proj1 (C4_end_callback_at_most_once demo_start x00 1 (initial 1)
                    [] demo_initial_reachable (Forall_nil_2 quiet))).
Defined.

Lemma C5_witness :
  mode_ (after (ISR_HandleNssFall x00) demo_mid) = kWaitingAddress
  /\ rx_bytes_ (after (ISR_HandleNssFall x00) demo_mid) = 2
  /\ rx_bytes_ (after (ISR_HandleNssRise 1) demo_mid) = 0.
Proof.
  destruct (C5_counters_reset_at_deassertion demo_start x00 1 demo_mid
              demo_mid_reachable)
    as ((H1 & _ & H2) & (_ & H3) & _).
  split; [exact H1|split; [exact H2|exact H3]].
Defined.

(** C5, as the specification has it, fails: an assertion that finds the
    counters at 3 and 2 leaves them there, and a deassertion, which is
    no assertion, sets them to zero. *)
Lemma C5_counterexample :
  (tx_bytes_ demo_mid = 3 /\ rx_bytes_ demo_mid = 2)
  /\ (tx_bytes_ (after (ISR_HandleNssFall x00) demo_mid) = 3
      /\ rx_bytes_ (after (ISR_HandleNssFall x00) demo_mid) = 2)
  /\ (tx_bytes_ (after (ISR_HandleNssRise 1) demo_mid) = 0
      /\ rx_bytes_ (after (ISR_HandleNssRise 1) demo_mid) = 0).
Proof. vm_compute. repeat split. Qed.

Lemma C6_witness :
  let m := {| mode_ := kInactive; current_address_ := 16;
              buffer_ := demo_start 16; tx_bytes_ := 0; rx_bytes_ := 0;
              spi_ := {| rx_fifo := [x01; x02]; tx_room := 1 |} |} in
  after (ISR_SPI demo_start x00) m
  = {| mode_ := kInactive; current_address_ := 16;
       buffer_ := demo_start 16; tx_bytes_ := 0; rx_bytes_ := 0;
       spi_ := {| rx_fifo := []; tx_room := 1 |} |}
  /\ output (ISR_SPI demo_start x00) m = [DR_read x01; DR_read x02].
Proof.
  exact (C6_inactive_bytes_are_discarded demo_start x00
           {| mode_ := kInactive; current_address_ := 16;
              buffer_ := demo_start 16; tx_bytes_ := 0; rx_bytes_ := 0;
              spi_ := {| rx_fifo := [x01; x02]; tx_room := 1 |} |}
           eq_refl).
Defined.

Lemma C7_witness :
  mode_ (after (ISR_HandleNssFall x00) demo_mid) = kWaitingAddress
  /\ ends (output (run demo_start x00 1 [nss_fall; nss_rise]) demo_mid) = [].
Proof.
  destruct (C7_reassertion_returns_to_waiting demo_start x00 1 demo_mid
              demo_mid_reachable)
    as (H1 & _ & _ & _ & H2 & _).
  split; [exact (f_equal mode_ H1)|exact H2].
Defined.

(** C7, as the specification has it, fails: a reassertion during a
    transfer changes the mode, and the deassertion that follows does not
    report the transfer, which it would have reported otherwise. *)
Lemma C7_counterexample :
  mode_ demo_mid = kTransfer
  /\ mode_ (after (ISR_HandleNssFall x00) demo_mid) = kWaitingAddress
  /\ ends (output (run demo_start x00 1 [nss_rise]) demo_mid) = [(16, 2)]
  /\ ends (output (run demo_start x00 1 [nss_fall; nss_rise]) demo_mid) = [].
Proof. vm_compute. repeat split. Qed.

Lemma C9_witness :
  mode_ (after (run demo_start x00 1 [nss_fall; spi_irq [x10] 0]) (initial 1))
  = kTransfer
  /\ starts (output (run demo_start x00 1 (transaction [spi_irq [x10] 0]))
               (initial 1)) = [16]
  /\ ends (output (run demo_start x00 1 (transaction [spi_irq [x10] 0]))
             (initial 1)) = [(16, 0)].
Proof.
  exact (C9_address_only_transaction demo_start x00 1 (initial 1)
           [spi_irq [x10] 0] x10
           demo_initial_reachable eq_refl
           demo_address_only_quiet eq_refl).
Defined.

(** ** More of the byte pump *)

Section Pump.

Variable start_handler_ : Z -> Buffer.
Variable dr_idle : byte.
Variable reset_room : nat.

Local Abbreviation run' := (run start_handler_ dr_idle reset_room).
Local Abbreviation handle' := (handle start_handler_ dr_idle reset_room).
Local Abbreviation reachable' := (reachable start_handler_ dr_idle reset_room).
Local Abbreviation ISR_SPI' := (ISR_SPI start_handler_ dr_idle).
Local Abbreviation ISR_SPI_loop' := (ISR_SPI_loop start_handler_ dr_idle).

(** [ISR_SPI] in [kWaitingAddress] with a byte waiting: the first byte
    is the address, the rest is data. *)
Lemma ISR_SPI_waiting a ds addr buf t n room :
  ISR_SPI'
    {| mode_ := kWaitingAddress; current_address_ := addr; buffer_ := buf;
       tx_bytes_ := t; rx_bytes_ := n;
       spi_ := {| rx_fifo := a :: ds; tx_room := room |} |}
  = (tt,
     {| mode_ := kTransfer; current_address_ := u8 a;
        buffer_ := {| tx := tx (start_handler_ (u8 a));
                      rx := rx_fill n ds (rx (start_handler_ (u8 a))) |};
        tx_bytes_ := tx_advance t room;
        rx_bytes_ := rx_advance n (length ds);
        spi_ := {| rx_fifo := []; tx_room := 0 |} |},
     DR_read a :: start_call (u8 a)
       :: map DR_write (fills (tx (start_handler_ (u8 a))) t room)
       ++ transfer_output (tx (start_handler_ (u8 a)))
            (tx_advance t room) 0 n
            (length (rx (start_handler_ (u8 a)))) ds).
Proof.
  rewrite ISR_SPI_unfold. cbn [spi_ rx_fifo length].
  erewrite ISR_SPI_loop_step by reflexivity.
  erewrite bind_eq by apply ISR_SPI_body_waiting.
  destruct (start_handler_ (u8 a)) as [txv rxv]. cbn [tx rx].
  rewrite ISR_SPI_loop_transfer.
  replace (tx_advance (tx_advance t room) (used_room ds 0))
    with (tx_advance t room) by (destruct ds; reflexivity).
  replace (left_room ds 0) with O by (destruct ds; reflexivity).
  reflexivity.
Qed.

(** X2: one invocation of [ISR_SPI] reads every byte that waits in the
    receive FIFO, once and in order, whatever the mode, and leaves the
    FIFO empty; it never invokes the end callback, and it invokes the
    start callback only for the first byte it reads in
    [kWaitingAddress]. *)
Theorem X2_ISR_SPI_reads_all_pending_bytes m :
  reads (output ISR_SPI' m) = rx_fifo (spi_ m)
  /\ rx_fifo (spi_ (after ISR_SPI' m)) = []
  /\ ends (output ISR_SPI' m) = []
  /\ starts (output ISR_SPI' m)
     = match mode_ m, rx_fifo (spi_ m) with
       | kWaitingAddress, a :: _ => [u8 a]
       | _, _ => []
       end.
Proof.
  destruct m as [mode addr buf t n [fifo room]]. cbn [mode_ spi_ rx_fifo].
  destruct mode.
  - unfold after, output. rewrite ISR_SPI_unfold. cbn [spi_ rx_fifo].
    rewrite ISR_SPI_loop_inactive. cbn [snd fst spi_ rx_fifo].
    destruct (projections_DR_read fifo) as (-> & _ & _ & -> & ->).
    repeat split.
  - destruct fifo as [|a ds]; [repeat split|].
    by_spec (ISR_SPI_waiting a ds addr buf t n room).
    change (DR_read a :: start_call (u8 a) :: ?l)
      with ([DR_read a; start_call (u8 a)] ++ l).
    rewrite !reads_app, !ends_app, !starts_app.
    destruct (projections_DR_write
                (fills (tx (start_handler_ (u8 a))) t room))
      as (-> & _ & _ & -> & ->).
    destruct (projections_transfer_output (tx (start_handler_ (u8 a)))
                (tx_advance t room) 0 n
                (length (rx (start_handler_ (u8 a)))) ds)
      as (-> & _ & _ & -> & ->).
    repeat split.
  - destruct buf as [txv rxv].
    unfold after, output. rewrite ISR_SPI_unfold. cbn [spi_ rx_fifo].
    rewrite ISR_SPI_loop_transfer. cbn [snd fst spi_ rx_fifo].
    destruct (projections_transfer_output txv t room n (length rxv) fifo)
      as (-> & _ & _ & -> & ->).
    repeat split.
Qed.

(** *** The transmit counter, modulo 2^32 *)

Lemma size_t_wrap_range z : 0 <= size_t_wrap z < 2 ^ 32.
Proof. unfold size_t_wrap. apply Z.mod_pos_bound. lia. Qed.

Lemma tx_advance_mod t k :
  0 <= t < 2 ^ 32 -> tx_advance t k = (t + Z.of_nat k) mod 2 ^ 32.
Proof.
  revert t. induction k as [|k IH]; intros t Ht; cbn [tx_advance].
  { rewrite Z.add_0_r, Z.mod_small; lia. }
  rewrite IH by apply size_t_wrap_range. unfold size_t_wrap.
  rewrite Zplus_mod_idemp_l. f_equal. lia.
Qed.

Lemma fills_mod txv t k :
  0 <= t < 2 ^ 32 ->
  fills txv t k
  = map (fun i => tx_byte_at txv ((t + Z.of_nat i) mod 2 ^ 32)) (seq 0 k).
Proof.
  revert t. induction k as [|k IH]; intros t Ht; [reflexivity|].
  cbn [fills seq map]. f_equal.
  { rewrite Z.add_0_r, Z.mod_small; [reflexivity|lia]. }
  rewrite IH by apply size_t_wrap_range.
  rewrite <- List.seq_shift, List.map_map. apply List.map_ext. intros i.
  unfold size_t_wrap. rewrite Zplus_mod_idemp_l. do 2 f_equal. lia.
Qed.

(** X3: [ISR_PrepareTx] writes one byte for every free transmit slot and
    leaves none free.  The [i]-th byte it writes is [tx[j]] when the
    offset [j = (tx_bytes_ + i) mod 2^32] is below the size of the
    transmit view and 0 otherwise; [tx_bytes_] advances by the number
    of bytes written, modulo 2^32, and nothing else changes. *)
Theorem X3_ISR_PrepareTx_fills_free_slots m :
  0 <= tx_bytes_ m < 2 ^ 32 ->
  let k := tx_room (spi_ m) in
  let t := tx_bytes_ m in
  output ISR_PrepareTx m
  = map (fun i => DR_write (tx_byte_at (tx (buffer_ m))
                              ((t + Z.of_nat i) mod 2 ^ 32)))
        (seq 0 k)
  /\ after ISR_PrepareTx m
     = {| mode_ := mode_ m; current_address_ := current_address_ m;
          buffer_ := buffer_ m;
          tx_bytes_ := (t + Z.of_nat k) mod 2 ^ 32;
          rx_bytes_ := rx_bytes_ m;
          spi_ := {| rx_fifo := rx_fifo (spi_ m); tx_room := 0 |} |}.
Proof.
  destruct m as [mode addr buf t n [fifo room]]. cbn. intros Ht.
  by_spec (ISR_PrepareTx_spec mode addr buf t n fifo room).
  rewrite fills_mod, tx_advance_mod, List.map_map by lia. split; reflexivity.
Qed.

(** *** The callbacks of any run *)

Lemma pair_calls_app open out1 out2 :
  pair_calls open (out1 ++ out2)
  = match pair_calls open out1 with
    | Some open' => pair_calls open' out2
    | None => None
    end.
Proof.
  revert open. induction out1 as [|e out1 IH]; intros open; [reflexivity|].
  destruct e; cbn; try apply IH.
  destruct open as [a'|]; [|reflexivity].
  destruct (address =? a'); [apply IH|reflexivity].
Qed.

Lemma pair_calls_no_call open out :
  starts out = [] -> ends out = [] -> pair_calls open out = Some open.
Proof.
  induction out as [|e out IH]; [reflexivity|].
  destruct e; cbn; intros Hs He; try discriminate; apply IH; assumption.
Qed.

Lemma pair_calls_counts open out open' :
  pair_calls open out = Some open' ->
  (length (ends out) + match open' with Some _ => 1 | None => 0 end
   <= length (starts out) + match open with Some _ => 1 | None => 0 end)%nat.
Proof.
  revert open. induction out as [|e out IH]; intros open H; cbn in H.
  { injection H as ->. cbn. lia. }
  destruct e; try (apply IH in H; exact H).
  - apply IH in H.
    change (ends (start_call address :: out)) with (ends out).
    change (starts (start_call address :: out)) with (address :: starts out).
    cbn [length]. destruct open, open'; lia.
  - destruct open as [a'|]; [|discriminate].
    destruct (address =? a'); [|discriminate].
    apply IH in H.
    change (ends (end_call address count :: out))
      with ((address, count) :: ends out).
    change (starts (end_call address count :: out)) with (starts out).
    cbn [length]. destruct open'; lia.
Qed.

Lemma pair_calls_handle e m open :
  at_rest m -> open_matches m open ->
  exists open',
    pair_calls open (output (handle' e) m) = Some open'
    /\ open_matches (after (handle' e) m) open'.
Proof.
  destruct m as [mode addr buf t n [fifo room]].
  intros [Hf _] Ho; cbn in Hf; subst fifo. unfold open_matches in *.
  destruct e as [| |bs f|].
  - exists open. split; [reflexivity|discriminate].
  - cbn [handle]. by_spec (nss_rise_spec reset_room _). cbn.
    destruct (decide (mode = kTransfer)) as [E|E].
    + rewrite (Ho E). cbn. rewrite Z.eqb_refl.
      eexists. split; [reflexivity|discriminate].
    + exists open. split; [reflexivity|discriminate].
  - destruct mode.
    + by_spec (spi_irq_inactive start_handler_ dr_idle reset_room
                 bs f addr buf t n room).
      exists open. split; [|discriminate].
      apply pair_calls_no_call; apply projections_DR_read.
    + destruct bs as [|a ds].
      * by_spec (spi_irq_no_byte start_handler_ dr_idle reset_room
                   f kWaitingAddress addr buf t n room).
        exists open. split; [reflexivity|discriminate].
      * by_spec (spi_irq_waiting start_handler_ dr_idle reset_room
                   a ds f addr buf t n room).
        exists (Some (u8 a)). split; [|reflexivity].
        cbn [pair_calls]. apply pair_calls_no_call.
        -- rewrite starts_app.
           destruct (projections_DR_write
                       (fills (tx (start_handler_ (u8 a))) t (room + f)))
             as (_ & _ & _ & -> & _).
           apply projections_transfer_output.
        -- rewrite ends_app.
           destruct (projections_DR_write
                       (fills (tx (start_handler_ (u8 a))) t (room + f)))
             as (_ & _ & _ & _ & ->).
           apply projections_transfer_output.
    + destruct buf as [txv rxv].
      by_spec (spi_irq_transfer start_handler_ dr_idle reset_room
                 bs f addr txv rxv t n room).
      exists open. split; [|exact Ho].
      apply pair_calls_no_call; apply projections_transfer_output.
  - exists open. split; [reflexivity|exact Ho].
Qed.

Lemma pair_calls_run evs m open :
  at_rest m -> open_matches m open ->
  exists open',
    pair_calls open (output (run' evs) m) = Some open'
    /\ open_matches (after (run' evs) m) open'.
Proof.
  revert m open. induction evs as [|e evs IH]; intros m open Hm Ho.
  { exists open. split; [reflexivity|exact Ho]. }
  destruct (pair_calls_handle e m open Hm Ho) as (o1 & H1 & Ho1).
  destruct (IH _ o1 (at_rest_handle _ _ _ e m Hm) Ho1) as (o2 & H2 & Ho2).
  exists o2. rewrite output_cons, after_cons, pair_calls_app, H1.
  split; assumption.
Qed.

(** X4: in every run of events from construction, whatever the order of
    the edges, interrupts and polls, each end callback closes a
    transfer that a start callback has opened and carries the address
    that start callback was given, and no transfer is closed twice; so
    the end callback is never invoked more often than the start
    callback. *)
Theorem X4_end_callbacks_answer_start_callbacks evs :
  let out := output (run' evs) (initial reset_room) in
  (exists open, pair_calls None out = Some open)
  /\ (length (ends out) <= length (starts out))%nat.
Proof.
  cbn zeta.
  destruct (pair_calls_run evs (initial reset_room) None)
    as (open & H & _).
  { split; [reflexivity|done]. }
  { discriminate. }
  split; [exists open; exact H|].
  apply pair_calls_counts in H. destruct open; lia.
Qed.

(** *** A transaction that starts with the counters not at zero *)

Lemma tx_advance_range t k : 0 <= t < 2 ^ 32 -> 0 <= tx_advance t k < 2 ^ 32.
Proof.
  intros Ht. rewrite tx_advance_mod by exact Ht. apply Z.mod_pos_bound. lia.
Qed.

Lemma tx_range_handle e m :
  at_rest m -> 0 <= tx_bytes_ m < 2 ^ 32 ->
  0 <= tx_bytes_ (after (handle' e) m) < 2 ^ 32.
Proof.
  destruct m as [mode addr buf t n [fifo room]].
  intros [Hf _] Ht; cbn in Hf, Ht; subst fifo.
  destruct e as [| |bs f|]; [exact Ht| | |exact Ht].
  { cbn [handle]. by_spec (nss_rise_spec reset_room _). cbn [tx_bytes_]. lia. }
  destruct mode.
  - by_spec (spi_irq_inactive start_handler_ dr_idle reset_room
               bs f addr buf t n room). exact Ht.
  - destruct bs as [|a ds].
    + by_spec (spi_irq_no_byte start_handler_ dr_idle reset_room
                 f kWaitingAddress addr buf t n room). exact Ht.
    + by_spec (spi_irq_waiting start_handler_ dr_idle reset_room
                 a ds f addr buf t n room).
      apply tx_advance_range, Ht.
  - destruct buf as [txv rxv].
    by_spec (spi_irq_transfer start_handler_ dr_idle reset_room
               bs f addr txv rxv t n room).
    apply tx_advance_range, Ht.
Qed.

Lemma reachable_tx_range m : reachable' m -> 0 <= tx_bytes_ m < 2 ^ 32.
Proof.
  intros [evs <-].
  assert (H : forall m0, at_rest m0 -> 0 <= tx_bytes_ m0 < 2 ^ 32 ->
                         0 <= tx_bytes_ (after (run' evs) m0) < 2 ^ 32).
  { induction evs as [|e evs IH]; intros m0 Hr Ht; [exact Ht|].
    rewrite after_cons.
    apply IH; [apply at_rest_handle, Hr|apply tx_range_handle; assumption]. }
  apply H; [split; [reflexivity|done]|cbn; lia].
Qed.

(** X5: a transaction does not start the counters anew.  When the
    select line is asserted with [rx_bytes_ = n] and [tx_bytes_ = t]
    (after a reassertion that cut a transfer short; both are zero
    after a deassertion), the transfer that was cut short is never
    reported, the data bytes are stored from index [n] on, the fills
    read the transmit view from offset [t] on, and the one end
    callback reports [n] more bytes than were clocked. *)
Theorem X5_assertion_keeps_the_counters m body a data :
  reachable' m -> Forall quiet body -> clocked body = a :: data ->
  0 <= rx_bytes_ m -> rx_bytes_ m + Z.of_nat (length data) < 2 ^ 31 ->
  let B := start_handler_ (u8 a) in
  let out := output (run' (transaction body)) m in
  let n := rx_bytes_ m in
  let t := tx_bytes_ m in
  starts out = [u8 a]
  /\ ends out = [(u8 a, n + Z.of_nat (length data))]
  /\ stores out
     = stored_at (Z.to_nat n) (take (length (rx B) - Z.to_nat n) data)
  /\ writes out
     = map (fun i => tx_byte_at (tx B) ((t + Z.of_nat i) mod 2 ^ 32))
           (seq 0 (served_room (tx_room (spi_ m)) body)).
Proof.
  intros Hr Hq Hc Hn Hb. cbn zeta.
  pose proof (reachable_tx_range m Hr) as Ht.
  destruct (reachable_at_rest _ _ _ m Hr) as [Hf _].
  destruct m as [mode addr buf t n [fifo room]]; cbn in Hf, Hn, Hb, Ht.
  subst fifo. cbn [rx_bytes_ tx_bytes_ spi_ tx_room].
  destruct (cycle_shape start_handler_ dr_idle reset_room body a data Hq Hc
              mode addr buf t n room)
    as (S0 & pre & post & Hout & Hpre & Hpost).
  destruct Hpre as (_ & Pw & Ps & Pst & Pe).
  destruct Hpost as (_ & Qw & Qs & Qst & Qe).
  change (transaction body) with ((nss_fall :: body) ++ [nss_rise]).
  rewrite output_app, S0, Hout.
  rewrite (output_cons _ _ _ nss_rise []).
  rewrite (output_eq (handle' nss_rise) _ _ _ _ (nss_rise_spec reset_room _)).
  change (output (run' []) ?x) with (@nil effect).
  rewrite !starts_app, !ends_app, !stores_app, !writes_app.
  rewrite Pw, Ps, Pst, Pe, Qw, Qs, Qst, Qe. cbn.
  rewrite rx_advance_small, fills_mod, !app_nil_r by lia.
  rewrite <- (Z2Nat.id n) at 2 by lia.
  rewrite rx_stores_small by lia.
  repeat split.
Qed.

(** *** The millisecond poll *)

Lemma drop_led_high_app out1 out2 :
  drop_led_high (out1 ++ out2) = drop_led_high out1 ++ drop_led_high out2.
Proof. apply omap_app. Qed.

Lemma drop_led_high_id out :
  Forall (fun e => e <> led_write true) out -> drop_led_high out = out.
Proof.
  induction 1 as [|e out He _ IH]; [reflexivity|].
  unfold drop_led_high in *. cbn. rewrite IH.
  destruct e as [| | | | | |[]|]; try reflexivity. contradiction.
Qed.

Lemma transfer_output_no_led txv t room n size bs :
  Forall (fun e => e <> led_write true)
    (transfer_output txv t room n size bs).
Proof.
  revert t room n. induction bs as [|b bs IH]; intros t room n; [constructor|].
  cbn [transfer_output]. constructor; [discriminate|].
  rewrite !Forall_app. split; [|split; [|apply IH]].
  - destruct (n <? _); repeat constructor; discriminate.
  - apply Forall_fmap, Forall_true. discriminate.
Qed.

Lemma handle_no_led e m :
  at_rest m -> e <> poll_ms ->
  Forall (fun e => e <> led_write true) (output (handle' e) m).
Proof.
  destruct m as [mode addr buf t n [fifo room]].
  intros [Hf _] He; cbn in Hf; subst fifo.
  destruct e as [| |bs f|]; [| | |done].
  - repeat constructor; discriminate.
  - cbn [handle]. by_spec (nss_rise_spec reset_room _).
    destruct (decide _); repeat constructor; discriminate.
  - destruct mode.
    + by_spec (spi_irq_inactive start_handler_ dr_idle reset_room
                 bs f addr buf t n room).
      apply Forall_fmap, Forall_true. discriminate.
    + destruct bs as [|a ds].
      * by_spec (spi_irq_no_byte start_handler_ dr_idle reset_room
                   f kWaitingAddress addr buf t n room). constructor.
      * by_spec (spi_irq_waiting start_handler_ dr_idle reset_room
                   a ds f addr buf t n room).
        do 2 (constructor; [discriminate|]).
        rewrite Forall_app. split; [|apply transfer_output_no_led].
        apply Forall_fmap, Forall_true. discriminate.
    + destruct buf as [txv rxv].
      by_spec (spi_irq_transfer start_handler_ dr_idle reset_room
                 bs f addr txv rxv t n room).
      apply transfer_output_no_led.
Qed.

(** X6: the millisecond poll is seen on the status LED and nowhere
    else.  Taking the polls out of a run of events leaves the machine
    the run ends in as it was, and takes out of the output the writes
    of the LED's idle level and nothing more. *)
Theorem X6_polls_touch_only_the_led evs m :
  reachable' m ->
  after (run' evs) m = after (run' (drop_polls evs)) m
  /\ drop_led_high (output (run' evs) m)
     = output (run' (drop_polls evs)) m.
Proof.
  intros Hr. pose proof (reachable_at_rest _ _ _ m Hr) as Hm. clear Hr.
  revert m Hm. induction evs as [|e evs IH]; intros m Hm; [split; reflexivity|].
  assert (He : e = poll_ms \/ e <> poll_ms)
    by (destruct e; (left; reflexivity) || (right; discriminate)).
  destruct He as [->|He].
  - change (drop_polls (poll_ms :: evs)) with (drop_polls evs).
    rewrite after_cons, output_cons.
    change (after (handle' poll_ms) m) with m.
    change (output (handle' poll_ms) m) with [led_write true].
    apply IH, Hm.
  - replace (drop_polls (e :: evs)) with (e :: drop_polls evs)
      by (destruct e; done).
    rewrite !after_cons, !output_cons, drop_led_high_app.
    rewrite (drop_led_high_id _ (handle_no_led e m Hm He)).
    destruct (IH _ (at_rest_handle start_handler_ dr_idle reset_room e m Hm))
      as [-> ->].
    split; reflexivity.
Qed.

(** *** A burst of bytes *)

Lemma transfer_output_app txv t room n size bs1 bs2 :
  transfer_output txv t room n size (bs1 ++ bs2)
  = transfer_output txv t room n size bs1
      ++ transfer_output txv (tx_advance t (used_room bs1 room))
           (left_room bs1 room) (rx_advance n (length bs1)) size bs2.
Proof.
  revert t room n. induction bs1 as [|b bs1 IH]; intros t room n.
  { reflexivity. }
  cbn [app transfer_output used_room left_room length rx_advance].
  rewrite IH.
  replace (used_room bs1 0) with O by (destruct bs1; reflexivity).
  replace (left_room bs1 0) with O by (destruct bs1; reflexivity).
  cbn [tx_advance]. rewrite <- !app_assoc. reflexivity.
Qed.

(** X7: a burst is served as its bytes are.  One interrupt that finds
    the bytes [bs1 ++ bs2] waiting leaves the same machine and makes
    the same register accesses, stores and callback invocations, in
    the same order, as an interrupt for [bs1] followed by one for
    [bs2]. *)
Theorem X7_burst_is_served_byte_by_byte m bs1 bs2 f :
  reachable' m ->
  after (run' [spi_irq (bs1 ++ bs2) f]) m
  = after (run' [spi_irq bs1 f; spi_irq bs2 0]) m
  /\ output (run' [spi_irq (bs1 ++ bs2) f]) m
     = output (run' [spi_irq bs1 f; spi_irq bs2 0]) m.
Proof.
  intros Hr. destruct (reachable_at_rest _ _ _ m Hr) as [Hf _].
  destruct m as [mode addr buf t n [fifo room]]; cbn in Hf; subst fifo.
  rewrite !after_cons, !output_cons.
  change (after (run' []) ?x) with x.
  change (output (run' []) ?x) with (@nil effect).
  rewrite !app_nil_r.
  destruct mode.
  - by_spec (spi_irq_inactive start_handler_ dr_idle reset_room
               (bs1 ++ bs2) f addr buf t n room).
    by_spec (spi_irq_inactive start_handler_ dr_idle reset_room
               bs1 f addr buf t n room).
    by_spec (spi_irq_inactive start_handler_ dr_idle reset_room
               bs2 0%nat addr buf t n (room + f)%nat).
    rewrite Nat.add_0_r, List.map_app. split; reflexivity.
  - destruct bs1 as [|a ds].
    + by_spec (spi_irq_no_byte start_handler_ dr_idle reset_room
                 f kWaitingAddress addr buf t n room).
      cbn [app]. destruct bs2 as [|a ds].
      * by_spec (spi_irq_no_byte start_handler_ dr_idle reset_room
                   f kWaitingAddress addr buf t n room).
        by_spec (spi_irq_no_byte start_handler_ dr_idle reset_room
                   0%nat kWaitingAddress addr buf t n (room + f)%nat).
        rewrite Nat.add_0_r. split; reflexivity.
      * by_spec (spi_irq_waiting start_handler_ dr_idle reset_room
                   a ds f addr buf t n room).
        by_spec (spi_irq_waiting start_handler_ dr_idle reset_room
                   a ds 0%nat addr buf t n (room + f)%nat).
        rewrite Nat.add_0_r. split; reflexivity.
    + cbn [app].
      by_spec (spi_irq_waiting start_handler_ dr_idle reset_room
                 a (ds ++ bs2) f addr buf t n room).
      by_spec (spi_irq_waiting start_handler_ dr_idle reset_room
                 a ds f addr buf t n room).
      by_spec (spi_irq_transfer start_handler_ dr_idle reset_room
                 bs2 0%nat (u8 a) (tx (start_handler_ (u8 a)))
                 (rx_fill n ds (rx (start_handler_ (u8 a))))
                 (tx_advance t (room + f)) (rx_advance n (length ds)) 0%nat).
      rewrite rx_fill_app, length_app, rx_advance_add, transfer_output_app,
        rx_fill_length.
      replace (used_room ds 0) with O by (destruct ds; reflexivity).
      replace (left_room ds 0) with O by (destruct ds; reflexivity).
      replace (used_room bs2 (0 + 0)) with O by (destruct bs2; reflexivity).
      replace (left_room bs2 (0 + 0)) with O by (destruct bs2; reflexivity).
      cbn [tx_advance plus app]. rewrite <- ?app_assoc. split; reflexivity.
  - destruct buf as [txv rxv].
    by_spec (spi_irq_transfer start_handler_ dr_idle reset_room
               (bs1 ++ bs2) f addr txv rxv t n room).
    by_spec (spi_irq_transfer start_handler_ dr_idle reset_room
               bs1 f addr txv rxv t n room).
    by_spec (spi_irq_transfer start_handler_ dr_idle reset_room
               bs2 0%nat addr txv (rx_fill n bs1 rxv)
               (tx_advance t (used_room bs1 (room + f)))
               (rx_advance n (length bs1)) (left_room bs1 (room + f))).
    rewrite rx_fill_app, length_app, rx_advance_add, transfer_output_app,
      rx_fill_length, Nat.add_0_r.
    destruct bs1 as [|b1 bs1]; [split; reflexivity|].
    cbn [app used_room left_room].
    replace (used_room bs2 0) with O by (destruct bs2; reflexivity).
    replace (left_room bs2 0) with O by (destruct bs2; reflexivity).
    split; reflexivity.
Qed.

(** *** The mode *)

Lemma mode_handle e m :
  at_rest m -> mode_ (after (handle' e) m) = mode_step (mode_ m) e.
Proof.
  destruct m as [mode addr buf t n [fifo room]].
  intros [Hf _]; cbn in Hf; subst fifo.
  destruct e as [| |bs f|]; [reflexivity| |destruct mode|reflexivity].
  - cbn [handle]. by_spec (nss_rise_spec reset_room _). reflexivity.
  - by_spec (spi_irq_inactive start_handler_ dr_idle reset_room
               bs f addr buf t n room).
    destruct bs; reflexivity.
  - destruct bs as [|a ds].
    + by_spec (spi_irq_no_byte start_handler_ dr_idle reset_room
                 f kWaitingAddress addr buf t n room). reflexivity.
    + by_spec (spi_irq_waiting start_handler_ dr_idle reset_room
                 a ds f addr buf t n room). reflexivity.
  - destruct buf as [txv rxv].
    by_spec (spi_irq_transfer start_handler_ dr_idle reset_room
               bs f addr txv rxv t n room).
    destruct bs; reflexivity.
Qed.

(** X12: the mode follows a machine of three states that knows nothing
    of the counters, the buffers or the bytes.  After any run of events
    from construction the mode is what these rules give: an assertion
    leads to [kWaitingAddress] and a deassertion to [kInactive] from
    every mode, an SPI interrupt that serves at least one byte leads
    from [kWaitingAddress] to [kTransfer], and nothing else changes the
    mode. *)
Theorem X12_mode_is_a_three_state_machine evs :
  mode_ (after (run' evs) (initial reset_room))
  = fold_left mode_step evs kInactive.
Proof.
  assert (H : forall m, at_rest m ->
                        mode_ (after (run' evs) m)
                        = fold_left mode_step evs (mode_ m)).
  { induction evs as [|e evs IH]; intros m Hm; [reflexivity|].
    rewrite after_cons, IH by (apply at_rest_handle, Hm).
    rewrite mode_handle by exact Hm. reflexivity. }
  apply (H (initial reset_room)). split; [reflexivity|done].
Qed.

End Pump.

(** ** The merge of the constructor, for any type *)

(** X11: [merge] is commutative and associative, and merging a value
    with itself gives that value: merged in any order, three values
    give their common value when they are equal and the
    value-initialised one otherwise. *)
Theorem X11_merge_in_any_order {T : Type} `{EqDecision T} `{ValueInit T}
    (a b c : T) :
  merge a a = a
  /\ merge a b = merge b a
  /\ merge a (merge b c) = merge (merge a b) c
  /\ merge a (merge b c)
     = (if decide (a = b /\ b = c) then a else value_init).
Proof.
  unfold merge. repeat split; repeat case_decide; subst;
    try reflexivity; try congruence; try tauto.
Qed.

(** ** The platform under the constructor, verified *)

Lemma u32_bits_high r k : 0 <= r < 2 ^ 32 -> 32 <= k -> Z.testbit r k = false.
Proof.
  intros Hr Hk. rewrite <- (Z.mod_small r (2 ^ 32)) by exact Hr.
  apply Z.mod_pow2_bits_high. lia.
Qed.

(** Setting the bits of a mask in a 32 bit register and clearing them
    again leaves the register with those bits cleared and its other
    bits as they were. *)
Lemma pulse_reset_ldiff r mask :
  0 <= r < 2 ^ 32 -> pulse_reset r mask = Z.ldiff r mask.
Proof.
  intros Hr. apply Z.bits_inj'. intros k Hk.
  unfold pulse_reset, u32_not.
  rewrite !Z.land_spec, Z.lor_spec, Z.lnot_spec, Z.ldiff_spec by exact Hk.
  destruct (Z.lt_ge_cases k 32) as [Hlt|Hge].
  - rewrite Z.ones_spec_low by lia.
    destruct (Z.testbit r k), (Z.testbit mask k); reflexivity.
  - rewrite Z.ones_spec_high, (u32_bits_high r k Hr Hge) by lia.
    destruct (Z.testbit mask k); reflexivity.
Qed.

Section PlatformProperties.

Variable defined : spi_index -> bool.
Variable SPI : spi_index -> Z.
Variable SPI_ : spi_index -> Z.
Variable RCC_APB2RSTR_SPI1RST : Z.
Variable RCC_APB1RSTR1_SPI2RST : Z.
Variable RCC_APB1RSTR1_SPI3RST : Z.

Local Abbreviation EnableSPI' :=
  (EnableSPI defined SPI RCC_APB2RSTR_SPI1RST RCC_APB1RSTR1_SPI2RST
     RCC_APB1RSTR1_SPI3RST).
Local Abbreviation GetSpiIrq' := (GetSpiIrq defined SPI_).

(** The branch of [EnableSPI] that a peripheral takes. *)
Lemma EnableSPI_branch spi rcc :
  (EnableSPI' spi rcc = None
   /\ forall i, defined i = true -> spi <> SPI i)
  \/ (exists i,
        defined i = true /\ spi = SPI i
        /\ (forall j, defined j = true -> spi = SPI j ->
            match i, j with
            | spi1, _ | spi2, (spi2 | spi3 | spi4)
            | spi3, (spi3 | spi4) | spi4, spi4 => True
            | _, _ => False
            end)
        /\ EnableSPI' spi rcc
           = Some {| APB2RSTR :=
                       match i with
                       | spi1 | spi4 =>
                           pulse_reset (APB2RSTR rcc) RCC_APB2RSTR_SPI1RST
                       | _ => APB2RSTR rcc
                       end;
                     APB1RSTR1 :=
                       match i with
                       | spi2 =>
                           pulse_reset (APB1RSTR1 rcc) RCC_APB1RSTR1_SPI2RST
                       | spi3 =>
                           pulse_reset (APB1RSTR1 rcc) RCC_APB1RSTR1_SPI3RST
                       | _ => APB1RSTR1 rcc
                       end;
                     spi_clock := clock_on i (spi_clock rcc) |}).
Proof.
  unfold EnableSPI.
  destruct (defined spi1 && (spi =? SPI spi1)) eqn:E1;
    [|destruct (defined spi2 && (spi =? SPI spi2)) eqn:E2;
      [|destruct (defined spi3 && (spi =? SPI spi3)) eqn:E3;
        [|destruct (defined spi4 && (spi =? SPI spi4)) eqn:E4]]].
  1-4: right.
  - exists spi1. apply andb_true_iff in E1 as [D E]. apply Z.eqb_eq in E.
    split; [assumption|split; [assumption|split; [|reflexivity]]].
    intros []; done.
  - exists spi2. apply andb_true_iff in E2 as [D E]. apply Z.eqb_eq in E.
    split; [assumption|split; [assumption|split; [|reflexivity]]].
    intros [] Dj Ej; try done.
    rewrite Dj in E1. apply andb_false_iff in E1 as [|E1]; [done|].
    apply Z.eqb_neq in E1. contradiction.
  - exists spi3. apply andb_true_iff in E3 as [D E]. apply Z.eqb_eq in E.
    split; [assumption|split; [assumption|split; [|reflexivity]]].
    intros [] Dj Ej; try done.
    + rewrite Dj in E1. apply andb_false_iff in E1 as [|E1]; [done|].
      apply Z.eqb_neq in E1. contradiction.
    + rewrite Dj in E2. apply andb_false_iff in E2 as [|E2]; [done|].
      apply Z.eqb_neq in E2. contradiction.
  - exists spi4. apply andb_true_iff in E4 as [D E]. apply Z.eqb_eq in E.
    split; [assumption|split; [assumption|split; [|reflexivity]]].
    intros [] Dj Ej; try done.
    + rewrite Dj in E1. apply andb_false_iff in E1 as [|E1]; [done|].
      apply Z.eqb_neq in E1. contradiction.
    + rewrite Dj in E2. apply andb_false_iff in E2 as [|E2]; [done|].
      apply Z.eqb_neq in E2. contradiction.
    + rewrite Dj in E3. apply andb_false_iff in E3 as [|E3]; [done|].
      apply Z.eqb_neq in E3. contradiction.
  - left. split; [reflexivity|]. intros [] D E.
    + rewrite D in E1. apply Z.eqb_neq in E1. contradiction.
    + rewrite D in E2. apply Z.eqb_neq in E2. contradiction.
    + rewrite D in E3. apply Z.eqb_neq in E3. contradiction.
    + rewrite D in E4. apply Z.eqb_neq in E4. contradiction.
Qed.

(** X8: [EnableSPI] ends the process exactly when its argument is none
    of the peripherals the target has, whatever the state of the reset
    and clock controller.  Otherwise it switches on the clock of the
    peripheral it was given and no other, and pulses a reset bit: the
    pulse leaves the bits of its mask cleared and every other bit of
    the two reset registers as it was.  The bit pulsed is the
    peripheral's own for SPI1, SPI2 and SPI3; for SPI4 it is the reset
    bit of SPI1. *)
Theorem X8_EnableSPI_pulses_a_reset_bit spi rcc :
  0 <= APB2RSTR rcc < 2 ^ 32 -> 0 <= APB1RSTR1 rcc < 2 ^ 32 ->
  let enabled :=
    EnableSPI defined SPI RCC_APB2RSTR_SPI1RST RCC_APB1RSTR1_SPI2RST
      RCC_APB1RSTR1_SPI3RST spi rcc in
  (enabled = None <-> forall i, defined i = true -> spi <> SPI i)
  /\ (forall rcc',
        enabled = Some rcc' ->
        exists i,
          defined i = true /\ spi = SPI i
          /\ spi_clock rcc' i = true
          /\ (forall j, j <> i -> spi_clock rcc' j = spi_clock rcc j)
          /\ APB2RSTR rcc'
             = match i with
               | spi1 | spi4 => Z.ldiff (APB2RSTR rcc) RCC_APB2RSTR_SPI1RST
               | _ => APB2RSTR rcc
               end
          /\ APB1RSTR1 rcc'
             = match i with
               | spi2 => Z.ldiff (APB1RSTR1 rcc) RCC_APB1RSTR1_SPI2RST
               | spi3 => Z.ldiff (APB1RSTR1 rcc) RCC_APB1RSTR1_SPI3RST
               | _ => APB1RSTR1 rcc
               end).
Proof.
  intros H2 H1. cbn zeta.
  destruct (EnableSPI_branch spi rcc)
    as [[E Hno]|(i & D & Ei & _ & E)]; rewrite E.
  - split; [split; [intros _; exact Hno|reflexivity]|discriminate].
  - split.
    + split; [discriminate|]. intros Hno. destruct (Hno i D Ei).
    + intros rcc' [= <-]. exists i. cbn.
      rewrite !pulse_reset_ldiff by assumption.
      repeat split; try assumption.
      * unfold clock_on. rewrite decide_True; reflexivity.
      * intros j Hj. unfold clock_on. rewrite decide_False; done.
Qed.

(** The branch of [GetSpiIrq] that a peripheral takes is the branch of
    [EnableSPI], where the names are the addresses. *)
Lemma GetSpiIrq_branch spi rcc :
  (forall i, SPI_ i = SPI i) ->
  match GetSpiIrq' spi, EnableSPI' spi rcc with
  | None, None => True
  | Some irq, Some rcc' =>
      defined (irq_index irq) = true /\ spi = SPI (irq_index irq)
      /\ spi_clock rcc' (irq_index irq) = true
  | _, _ => False
  end.
Proof.
  intros Hn. unfold GetSpiIrq, EnableSPI, u32. rewrite !Hn.
  destruct (defined spi1 && (spi =? SPI spi1)) eqn:E1;
    [|destruct (defined spi2 && (spi =? SPI spi2)) eqn:E2;
      [|destruct (defined spi3 && (spi =? SPI spi3)) eqn:E3;
        [|destruct (defined spi4 && (spi =? SPI spi4)) eqn:E4]]];
    [| | | |exact I];
    match goal with
    | E : (_ && (_ =? _)) = true |- _ =>
        apply andb_true_iff in E; destruct E as [? E]; apply Z.eqb_eq in E
    end;
    cbn; (split; [assumption|split; [assumption|]]);
    unfold clock_on; rewrite decide_True; reflexivity.
Qed.

(** X9: where the names [SPI_n] that [GetSpiIrq] switches on are the
    addresses [SPIn] that [EnableSPI] compares with, the two accept
    the same peripherals, and the interrupt [GetSpiIrq] returns is the
    one of the peripheral whose clock [EnableSPI] switched on. *)
Theorem X9_GetSpiIrq_agrees_with_EnableSPI spi rcc :
  (forall i, SPI_ i = SPI i) ->
  (GetSpiIrq' spi = None <-> EnableSPI' spi rcc = None)
  /\ (forall irq rcc',
        GetSpiIrq' spi = Some irq -> EnableSPI' spi rcc = Some rcc' ->
        spi = SPI (irq_index irq)
        /\ spi_clock rcc' (irq_index irq) = true).
Proof.
  intros Hn. pose proof (GetSpiIrq_branch spi rcc Hn) as H.
  destruct (GetSpiIrq' spi) as [irq|], (EnableSPI' spi rcc) as [rcc'|];
    try contradiction.
  - split; [split; discriminate|]. intros ? ? [= <-] [= <-].
    destruct H as (_ & ? & ?). split; assumption.
  - split; [split; reflexivity|discriminate].
Qed.

Variable PinName : Type.
Variable pinmap_peripheral : PinName -> PinMap -> Z.

Local Abbreviation RegisterSPISlave' :=
  (RegisterSPISlave defined SPI SPI_ RCC_APB2RSTR_SPI1RST
     RCC_APB1RSTR1_SPI2RST RCC_APB1RSTR1_SPI3RST PinName pinmap_peripheral).



End PlatformProperties.

(** ** The further properties, run *)

Lemma X3_witness :
  output ISR_PrepareTx demo_filling
  = [DR_write xcc; DR_write x00; DR_write x00]
  /\ tx_bytes_ (after ISR_PrepareTx demo_filling) = 5.
Proof.
  destruct (X3_ISR_PrepareTx_fills_free_slots demo_filling) as [H1 H2].
  - cbn. lia.
  - split; [exact H1|exact (f_equal tx_bytes_ H2)].
Defined.

Lemma demo_reassert_quiet : Forall quiet [spi_irq [x20; x07] 1].
Proof. repeat constructor. Qed.

Lemma X5_witness :
  let out := output (run demo_start x00 1
                       (transaction [spi_irq [x20; x07] 1])) demo_mid in
  starts out = [32] /\ ends out = [(32, 3)]
  /\ stores out = [(2, x07)] /\ writes out = [x00].
Proof.
  refine (X5_assertion_keeps_the_counters demo_start x00 1 demo_mid
            [spi_irq [x20; x07] 1] x20 [x07]
            demo_mid_reachable demo_reassert_quiet eq_refl _ _).
  - vm_compute. discriminate.
  - vm_compute. reflexivity.
Defined.

Lemma X6_witness :
  after (run demo_start x00 1
           [nss_fall; poll_ms; spi_irq [x10] 0; poll_ms; nss_rise]) (initial 1)
  = after (run demo_start x00 1 [nss_fall; spi_irq [x10] 0; nss_rise])
      (initial 1)
  /\ drop_led_high
       (output (run demo_start x00 1
                  [nss_fall; poll_ms; spi_irq [x10] 0; poll_ms; nss_rise])
          (initial 1))
     = output (run demo_start x00 1 [nss_fall; spi_irq [x10] 0; nss_rise])
         (initial 1).
Proof.
  exact (X6_polls_touch_only_the_led demo_start x00 1
           [nss_fall; poll_ms; spi_irq [x10] 0; poll_ms; nss_rise] (initial 1)
           demo_initial_reachable).
Defined.

Lemma X7_witness :
  after (run demo_start x00 1 [spi_irq [x03; x04] 1]) demo_mid
  = after (run demo_start x00 1 [spi_irq [x03] 1; spi_irq [x04] 0]) demo_mid
  /\ output (run demo_start x00 1 [spi_irq [x03; x04] 1]) demo_mid
     = output (run demo_start x00 1 [spi_irq [x03] 1; spi_irq [x04] 0])
         demo_mid.
Proof.
  exact (X7_burst_is_served_byte_by_byte demo_start x00 1 demo_mid
           [x03] [x04] 1 demo_mid_reachable).
Defined.

Lemma X8_witness :
  exists i,
    demo_defined i = true /\ demo_SPI spi4 = demo_SPI i
    /\ clock_on spi4 (spi_clock demo_rcc) i = true
    /\ (forall j, j <> i ->
        clock_on spi4 (spi_clock demo_rcc) j = spi_clock demo_rcc j)
    /\ 1 = match i with
           | spi1 | spi4 => Z.ldiff (APB2RSTR demo_rcc) 0x1000
           | _ => APB2RSTR demo_rcc
           end
    /\ 0 = match i with
           | spi2 => Z.ldiff (APB1RSTR1 demo_rcc) 0x4000
           | spi3 => Z.ldiff (APB1RSTR1 demo_rcc) 0x8000
           | _ => APB1RSTR1 demo_rcc
           end.
Proof.
  refine (proj2 (X8_EnableSPI_pulses_a_reset_bit demo_defined demo_SPI
                   0x1000 0x4000 0x8000 (demo_SPI spi4) demo_rcc _ _)
            {| APB2RSTR := 1; APB1RSTR1 := 0;
               spi_clock := clock_on spi4 (spi_clock demo_rcc) |} eq_refl).
  - cbn. lia.
  - cbn. lia.
Defined.

Lemma X9_witness :
  GetSpiIrq demo_defined demo_SPI 0xFFFFFFFF = None
  <-> EnableSPI demo_defined demo_SPI 0x1000 0x4000 0x8000 0xFFFFFFFF demo_rcc
      = None.
Proof.
  exact (proj1 (X9_GetSpiIrq_agrees_with_EnableSPI demo_defined demo_SPI
                  demo_SPI 0x1000 0x4000 0x8000 0xFFFFFFFF demo_rcc
                  (fun i => eq_refl))).
Defined.



(** The constructor on the platform above, and on four pins that are
    not connected. *)
Example constructor_completes :
  RegisterSPISlave demo_defined demo_SPI demo_SPI 0x1000 0x4000 0x8000
    nat demo_pinmap demo_pins demo_rcc
  = (constructed 0x40013000 SPI1_IRQn
       {| APB2RSTR := 1; APB1RSTR1 := 0;
          spi_clock := clock_on spi1 (spi_clock demo_rcc) |},
     [pinmap_pinout 1%nat PinMap_SPI_MOSI; pinmap_pinout 2%nat PinMap_SPI_MISO;
      pinmap_pinout 3%nat PinMap_SPI_SCLK; pin_mode 3%nat PullDown;
      pin_mode 4%nat PullUp; HAL_SPI_Init 0x40013000;
      nss_rise_attached; nss_fall_attached;
      NVIC_SetVector SPI1_IRQn; HAL_NVIC_SetPriority SPI1_IRQn 0 0;
      HAL_NVIC_EnableIRQ SPI1_IRQn]).
Proof. reflexivity. Qed.

Example constructor_dies_in_EnableSPI :
  fst (RegisterSPISlave demo_defined demo_SPI demo_SPI 0x1000 0x4000 0x8000
         nat (fun _ _ => 0xFFFFFFFF) demo_pins demo_rcc)
  = died_in_EnableSPI.
Proof. reflexivity. Qed.
